(** * traces: step-function series and their pointwise combination

    A shallow embedding of [series.go] and [combine.go] of the Go package
    [traces], and the properties of the package's specification proved
    over it.

    Conventions of the embedding.
    - [int64] and [int] values are integers of [Z]. The container never
      computes with its keys or values (it only compares and copies
      them), so no wrap-around occurs there; the reducers [Sum] and
      [Diff], which do add and subtract, wrap explicitly ([wrap64]).
    - [map[int64]int64] is a [gmap Z Z]; reading a missing key gives 0,
      as in Go ([mapget]).
    - A method with a pointer receiver takes the receiver's state and
      returns the state it leaves behind, next to its results.
    - A Go run-time panic (index or slice bounds out of range, nil
      dereference) is the outcome [Panic]. The one unbounded loop, in
      [find], runs on a budget of iterations; exhausting it is the
      outcome [Fuel], which is shown never to happen.
    - The order in which [range] visits a map is not specified by Go. It
      is a parameter ([range_keys]) of the two functions that range over
      a map, constrained only to enumerate the keys once each. *)

From stdpp Require Import gmap list sorting fin_maps.

Local Open Scope Z_scope.

(** ** Outcomes of a call *)

Inductive res (A : Type) : Type :=
  | Done (a : A)
  | Panic
  | Fuel.
Arguments Done {A} a.
Arguments Panic {A}.
Arguments Fuel {A}.

#[global] Instance res_ret : MRet res := λ A a, Done a.
#[global] Instance res_bind : MBind res := λ A B k r,
  match r with
  | Done a => k a
  | Panic => Panic
  | Fuel => Fuel
  end.

(** ** Go primitives *)

(** [m[k]] on a map: the zero value when the key is absent. *)
Definition mapget (m : gmap Z Z) (k : Z) : Z := default 0 (m !! k).

(** [l[i]] on a slice: panics unless [0 <= i < len(l)]. *)
Definition index (l : list Z) (i : Z) : res Z :=
  if decide (0 ≤ i) then
    match l !! Z.to_nat i with
    | Some v => Done v
    | None => Panic
    end
  else Panic.

(** [append(l[:i], l[i+1:]...)]: both slice expressions are bounds checked,
    [l[:i]] needs [0 <= i] and [l[i+1:]] needs [i+1 <= len(l)]. *)
Definition splice (l : list Z) (i : Z) : res (list Z) :=
  if decide (0 ≤ i ∧ i + 1 ≤ Z.of_nat (length l)) then
    Done (take (Z.to_nat i) l ++ drop (Z.to_nat (i + 1)) l)
  else Panic.

(** [sort.Slice(l, func(i, j) bool { return l[i] < l[j] })]: the elements
    in ascending order. Equal [int64]s are indistinguishable, so the result
    does not depend on the sorting algorithm. *)
Definition sort_slice (l : list Z) : list Z := merge_sort Z.le l.

(** Two's complement wrap-around of [int64] arithmetic. *)
Definition wrap64 (z : Z) : Z := (z + 2 ^ 63) `mod` 2 ^ 64 - 2 ^ 63.

(** ** The container *)

Record Series : Type := mkSeries {
  points : gmap Z Z;
  sorted : list Z;
  unsorted : list Z
}.

Definition NewSeries : Series := mkSeries ∅ [] [].

(** [sort] merges [unsorted] into [sorted]. *)
Definition sort (s : Series) : Series :=
  if decide (length (unsorted s) = 0%nat) then s
  else mkSeries (points s) (sort_slice (sorted s ++ unsorted s)) [].

(** The loop of [find]: [fuel] bounds the number of iterations. *)
Fixpoint find_loop (fuel : nat) (l : list Z) (x i j : Z) : res Z :=
  if decide (j - i > 1) then
    match fuel with
    | O => Fuel
    | S fuel' =>
        let half := (i + j + 1) `quot` 2 in
        v ← index l half;
        if decide (x = v) then Done half
        else if decide (x > v) then find_loop fuel' l x half j
        else find_loop fuel' l x i half
    end
  else Done i.

Definition find (s : Series) (x : Z) : res Z :=
  match sorted s with
  | [] => Done (-1)
  | k0 :: _ =>
      if decide (x < k0) then Done (-1)
      else find_loop (length (sorted s)) (sorted s) x 0
             (Z.of_nat (length (sorted s)))
  end.

Definition Size (s : Series) : Z := Z.of_nat (size (points s)).

Definition Has (s : Series) (x : Z) : bool := bool_decide (is_Some (points s !! x)).

(** The method [Set]; [Set] is a reserved word here. *)
Definition Set_ (s : Series) (x y : Z) : Series :=
  mkSeries (<[x := y]> (points s)) (sorted s)
    (match points s !! x with
     | Some _ => unsorted s
     | None => unsorted s ++ [x]
     end).

Definition Get (s : Series) (x : Z) : res (Series * Z) :=
  match points s !! x with
  | Some y => Done (s, y)
  | None =>
      let s := sort s in
      i ← find s x;
      if decide (i < 0) then Done (s, 0)
      else k ← index (sorted s) i; Done (s, mapget (points s) k)
  end.

Definition Remove (s : Series) (x : Z) : res Series :=
  match points s !! x with
  | None => Done s
  | Some _ =>
      let s := sort s in
      i ← find s x;
      l ← splice (sorted s) i;
      Done (mkSeries (delete x (points s)) l (unsorted s))
  end.

(** The loop of [Compact] over [s.sorted], [i] being the index of the head
    of [xs]; it skips index 0. *)
Fixpoint compact_loop (i : Z) (xs : list Z) (pts : gmap Z Z)
    (newSorted : list Z) (lastY : Z) : gmap Z Z * list Z :=
  match xs with
  | [] => (pts, newSorted)
  | x :: xs' =>
      if decide (i > 0) then
        if decide (mapget pts x = lastY) then
          compact_loop (i + 1) xs' (delete x pts) newSorted lastY
        else
          compact_loop (i + 1) xs' pts (newSorted ++ [x]) (mapget pts x)
      else compact_loop (i + 1) xs' pts newSorted lastY
  end.

Definition Compact (s : Series) : res Series :=
  if decide (Size s < 2) then Done s
  else
    let s := sort s in
    x0 ← index (sorted s) 0;
    let '(pts, newSorted) :=
      compact_loop 0 (sorted s) (points s) [x0] (mapget (points s) x0) in
    Done (mkSeries pts newSorted (unsorted s)).

Definition Xs (s : Series) : Series * list Z :=
  let s := sort s in (s, sorted s).

Definition X0 (s : Series) : Series * Z :=
  let s := sort s in
  match sorted s with
  | [] => (s, 0)
  | k0 :: _ => (s, k0)
  end.

Definition Floor (s : Series) (x : Z) : res (Series * (Z * bool)) :=
  if decide (Size s = 0) then Done (s, (0, false))
  else
    let s := sort s in
    i ← find s x;
    if decide (i < 0) then Done (s, (0, false))
    else k ← index (sorted s) i; Done (s, (k, true)).

Definition Ceiling (s : Series) (x : Z) : res (Series * (Z * bool)) :=
  if decide (Size s = 0) then Done (s, (0, false))
  else
    match points s !! x with
    | Some _ => Done (s, (x, true))
    | None =>
        let s := sort s in
        f ← find s x;
        let i := f + 1 in
        if decide (i >= Z.of_nat (length (sorted s))) then Done (s, (0, false))
        else k ← index (sorted s) i; Done (s, (k, true))
    end.

(** [Copy] returns the receiver's state and the new container. *)
Definition Copy (s : Series) : Series * Series :=
  let s := sort s in (s, mkSeries (points s) (sorted s) []).

Definition Equals (s s0 : Series) : bool := bool_decide (points s = points s0).

(** ** The reducers *)

Definition Sum (vals : list Z) : Z :=
  foldl (λ sum val, wrap64 (sum + val)) 0 vals.

Fixpoint Diff_loop (i : Z) (vals : list Z) (diff : Z) : Z :=
  match vals with
  | [] => diff
  | val :: vals' =>
      Diff_loop (i + 1) vals' (if decide (i = 0) then val else wrap64 (diff - val))
  end.
Definition Diff (vals : list Z) : Z := Diff_loop 0 vals 0.

Definition Any (vals : list Z) : Z :=
  foldl (λ any val, if decide (val ≠ 0) then 1 else any) 0 vals.

Definition All (vals : list Z) : Z :=
  foldl (λ all val, if decide (val = 0) then 0 else all) 1 vals.

(** ** Pointers to containers

    [Combine] receives pointers, and calls the mutating [Get] through them;
    the same pointer may occur several times in its argument list. The
    containers therefore live in a store, and [Combine] takes addresses. *)

Definition loc := nat.
Abbreviation heap := (gmap loc Series).

Definition deref (h : heap) (p : loc) : res Series :=
  match h !! p with
  | Some s => Done s
  | None => Panic
  end.

(** [for i, t0 := range list { valueSet[i] = t0.Get(key) }] *)
Fixpoint values_at (h : heap) (ptrs : list loc) (key : Z) : res (heap * list Z) :=
  match ptrs with
  | [] => Done (h, [])
  | p :: ps =>
      t0 ← deref h p;
      '(t0', y) ← Get t0 key;
      '(h', ys) ← values_at (<[p := t0']> h) ps key;
      Done (h', y :: ys)
  end.

(** ** Calls of the public methods *)

(** A call of a public method on a container. *)
Inductive op : Type :=
  | OpSet (x y : Z)
  | OpRemove (x : Z)
  | OpCompact
  | OpGet (x : Z)
  | OpHas (x : Z)
  | OpSize
  | OpXs
  | OpX0
  | OpFloor (x : Z)
  | OpCeiling (x : Z)
  | OpCopy
  | OpEquals (s0 : Series).

(** The state in which a call leaves its receiver. [Has], [Size] and
    [Equals] only read it. *)
Definition exec (o : op) (s : Series) : res Series :=
  match o with
  | OpSet x y => Done (Set_ s x y)
  | OpRemove x => Remove s x
  | OpCompact => Compact s
  | OpGet x => '(s', _) ← Get s x; Done s'
  | OpHas x => let _ := Has s x in Done s
  | OpSize => let _ := Size s in Done s
  | OpXs => Done (Xs s).1
  | OpX0 => Done (X0 s).1
  | OpFloor x => '(s', _) ← Floor s x; Done s'
  | OpCeiling x => '(s', _) ← Ceiling s x; Done s'
  | OpCopy => Done (Copy s).1
  | OpEquals s0 => let _ := Equals s s0 in Done s
  end.

Section map_iteration.

(** The order in which [range] visits the keys of a map; the properties
    below assume of it that it lists every key once. *)
Variable range_keys : gmap Z Z → list Z.

Definition NewSeriesData (data : gmap Z Z) : Series :=
  let '(points, unsorted) :=
    foldl (λ '(points, unsorted) key,
             (<[key := mapget data key]> points, unsorted ++ [key]))
          (∅, []) (range_keys data) in
  mkSeries points [] unsorted.

(** [for key := range s.points { ... }] with the keys still to visit;
    [pts] and [uns] are the locals [points] and [unsorted] of [Combine]. *)
Fixpoint combine_keys (f : list Z → Z) (h : heap) (list_ : list loc)
    (keys : list Z) (pts : gmap Z Z) (uns : list Z)
    : res (heap * gmap Z Z * list Z) :=
  match keys with
  | [] => Done (h, pts, uns)
  | key :: keys' =>
      match pts !! key with
      | Some _ => combine_keys f h list_ keys' pts uns
      | None =>
          '(h', valueSet) ← values_at h list_ key;
          combine_keys f h' list_ keys' (<[key := f valueSet]> pts)
            (uns ++ [key])
      end
  end.

(** [for _, s := range list { ... }] with the pointers still to visit. *)
Fixpoint combine_list (f : list Z → Z) (h : heap) (list_ rest : list loc)
    (pts : gmap Z Z) (uns : list Z)
    : res (heap * gmap Z Z * list Z) :=
  match rest with
  | [] => Done (h, pts, uns)
  | p :: rest' =>
      s ← deref h p;
      '(h', pts', uns') ←
        combine_keys f h list_ (range_keys (points s)) pts uns;
      combine_list f h' list_ rest' pts' uns'
  end.

(** [Combine] returns the store it leaves behind and the new container. *)
Definition Combine (f : list Z → Z) (h : heap) (list_ : list loc)
    : res (heap * Series) :=
  '(h', pts, uns) ← combine_list f h list_ list_ ∅ [];
  Done (h', mkSeries pts [] uns).

(** The containers that a program can hold: those made by a constructor
    or by [Copy], and those left by a call on such a container. *)
Inductive reachable : Series → Prop :=
  | reach_NewSeries : reachable NewSeries
  | reach_NewSeriesData data : reachable (NewSeriesData data)
  | reach_Copy s : reachable s → reachable (Copy s).2
  | reach_exec s o s' : reachable s → exec o s = Done s' → reachable s'.

End map_iteration.

(** ** Well-formed containers

    The consistency stated in the comment of the [Series] type: every key
    of [points] occurs exactly once in [sorted] or [unsorted] (I1), and
    [sorted] is strictly increasing (I2). *)

Definition stored (s : Series) (k : Z) : Prop := is_Some (points s !! k).

Record wf (s : Series) : Prop := mkWf {
  wf_keys : ∀ k, k ∈ sorted s ++ unsorted s ↔ stored s k;
  wf_nodup : NoDup (sorted s ++ unsorted s);
  wf_sorted : Sorted Z.lt (sorted s)
}.

(** [k] is the greatest key of [m] that is at most [x]. *)
Definition is_floor (m : gmap Z Z) (x k : Z) : Prop :=
  is_Some (m !! k) ∧ k ≤ x ∧ ∀ k', is_Some (m !! k') → k' ≤ x → k' ≤ k.

(** The value of the step function of [m] at [x]. *)
Definition step_value (m : gmap Z Z) (x y : Z) : Prop :=
  (∃ k, is_floor m x k ∧ m !! k = Some y) ∨
  ((∀ k, is_Some (m !! k) → x < k) ∧ y = 0).

(** The bracketing that the loop of [find] maintains:
    [l[i] <= x], and [x < l[j]] when [j] is an index. *)
Definition bracket (l : list Z) (x i j : Z) : Prop :=
  (∃ a, l !! Z.to_nat i = Some a ∧ a ≤ x) ∧
  (∀ b, l !! Z.to_nat j = Some b → x < b).

(** ** Checking well-formedness

    [wfb] is the check that the package's tests run after every call
    ([assertConsistent]): the keys of [points] match the elements of
    [sorted] and [unsorted] one to one, and [sorted] is in order. *)

Definition wfb (s : Series) : bool :=
  bool_decide (list_to_set (sorted s ++ unsorted s) = dom (points s))
  && bool_decide (NoDup (sorted s ++ unsorted s))
  && bool_decide (Sorted Z.lt (sorted s)).

(** ** [Compact] on lists

    [kept v lastY xs] lists the keys of [xs] that the loop of [Compact]
    retains when the values are given by [v] and the last retained value
    is [lastY]. *)

Fixpoint kept (v : Z → Z) (lastY : Z) (xs : list Z) : list Z :=
  match xs with
  | [] => []
  | x :: xs' =>
      if decide (v x = lastY) then kept v lastY xs'
      else x :: kept v (v x) xs'
  end.

(** [p] is the element of [l] immediately below [k]. *)
Definition pred_in (l : list Z) (k p : Z) : Prop :=
  p ∈ l ∧ p < k ∧ ∀ q, q ∈ l → ¬ (p < q < k).

(** The keys that [Compact] retains, from the merged [sorted]. *)
Definition retained (s : Series) : list Z :=
  match sorted (sort s) with
  | [] => []
  | x0 :: xs => x0 :: kept (mapget (points s)) (mapget (points s) x0) xs
  end.

(** [p] is the key of [m] immediately below [k]. *)
Definition pred_key (m : gmap Z Z) (k p : Z) : Prop :=
  is_Some (m !! p) ∧ p < k ∧ ∀ q, is_Some (m !! q) → ¬ (p < q < k).

(** What [Compact] leaves behind: a well-formed container [s'] holding a
    part of the points of [s], in which a point of [s] is missing exactly
    when its value equals that of the retained point immediately below it
    (equivalently, that of the point of [s] immediately below it), and on
    which [Compact] changes nothing. *)
Record compacts (s s' : Series) : Prop := mkCompacts {
  cp_wf : wf s';
  cp_sub : ∀ k v, points s' !! k = Some v → points s !! k = Some v;
  cp_retained : ∀ k, stored s k →
    ¬ stored s' k ↔
      ∃ p, pred_key (points s') k p ∧ points s !! p = points s !! k;
  cp_original : ∀ k, stored s k →
    ¬ stored s' k ↔
      ∃ p, pred_key (points s) k p ∧ points s !! p = points s !! k;
  cp_fix : Compact s' = Done s'
}.

(** ** The stored points after [Compact], as a function of the map

    A well-formed container is determined by its map up to the split of
    the keys between [sorted] and [unsorted]; after a merge, [sorted] is
    the sorted list of the keys. *)

Definition keys_sorted (m : gmap Z Z) : list Z := sort_slice (map_to_list m).*1.

Definition retained_of (m : gmap Z Z) : list Z :=
  match keys_sorted m with
  | [] => []
  | x0 :: xs => x0 :: kept (mapget m) (mapget m x0) xs
  end.

Definition compact_map (m : gmap Z Z) : gmap Z Z :=
  filter (λ kv, kv.1 ∈ retained_of m) m.

(** ** Test data of the package *)

(** [caser] and [caserc] of the tests: a series with redundant points and
    its compacted form. *)
Definition caser : gmap Z Z :=
  list_to_map [(0, 0); (2, 10); (4, 10); (5, 9); (10, 8); (20, 8); (22, 8); (30, 0)].
Definition caserc : gmap Z Z :=
  list_to_map [(0, 0); (2, 10); (5, 9); (10, 8); (30, 0)].

(** ** The store during [Combine] *)

(** [s'] is [s], possibly after the merge of its buffer: all that a [Get]
    can do to a container. *)
Definition merged (s s' : Series) : Prop := s' = s ∨ s' = sort s.

(** The store after some calls of [Get]. *)
Definition heap_merged (h h' : heap) : Prop :=
  ∀ p s, h !! p = Some s → ∃ s', h' !! p = Some s' ∧ merged s s'.

(** The arguments of [Combine] point to well-formed containers. *)
Definition inputs_wf (h : heap) (ptrs : list loc) : Prop :=
  ∀ p, p ∈ ptrs → ∃ s, h !! p = Some s ∧ wf s.

(** [v] is the result of [Get(x)] on the container at [p]. *)
Definition value_of (h : heap) (x : Z) (p : loc) (v : Z) : Prop :=
  ∃ s s', h !! p = Some s ∧ Get s x = Done (s', v).

(** [x] is a stored key of one of the containers at [ptrs]. *)
Definition input_key (h : heap) (ptrs : list loc) (x : Z) : Prop :=
  ∃ p s, p ∈ ptrs ∧ h !! p = Some s ∧ stored s x.

(** The map and the key list that [Combine] has built so far. *)
Definition partial (f : list Z → Z) (h0 : heap) (ptrs : list loc)
    (pts : gmap Z Z) (uns : list Z) : Prop :=
  wf (mkSeries pts [] uns) ∧
  ∀ x v, pts !! x = Some v →
    input_key h0 ptrs x ∧ ∃ vs, Forall2 (value_of h0 x) ptrs vs ∧ v = f vs.

(** ** The result of [Combine], as a function of the maps of its inputs *)

(** The greatest key of [m] that is at most [x]. *)
Definition floor_key (m : gmap Z Z) (x : Z) : option Z :=
  foldr (λ k acc,
           if decide (k ≤ x) then
             match acc with
             | Some k' => Some (Z.max k k')
             | None => Some k
             end
           else acc)
        None (map_to_list m).*1.

(** The step function of [m]. *)
Definition floor_value (m : gmap Z Z) (x : Z) : Z :=
  match floor_key m x with
  | Some k => mapget m k
  | None => 0
  end.

Definition combine_map (f : list Z → Z) (ms : list (gmap Z Z)) : gmap Z Z :=
  set_to_map (λ x, (x, f ((λ m, floor_value m x) <$> ms)))
    (⋃ (dom <$> ms) : gset Z).

(** The containers at [ptrs] are well formed and hold the maps [ms]. *)
Definition inputs_hold (h : heap) (ptrs : list loc) (ms : list (gmap Z Z)) : Prop :=
  Forall2 (λ p m, ∃ s, h !! p = Some s ∧ wf s ∧ points s = m) ptrs ms.

(** ** The combination test of the package *)

(** The two inputs of the combination test and the expected result for
    [Any], as the test lists it (it is compared after [Compact]). *)
Definition vals1 : gmap Z Z := list_to_map [(-5, 3); (0, 0); (123, 1)].
Definition vals2 : gmap Z Z := list_to_map [(-10, 1); (0, 2); (50, 0)].
Definition expected_any : gmap Z Z := list_to_map [(-10, 1); (50, 0); (123, 1)].

(** What [Combine(Any, ...)] stores on these inputs. *)
Definition combined_any : gmap Z Z :=
  list_to_map [(-10, 1); (-5, 1); (0, 1); (50, 0); (123, 1)].

(** One order of iteration over a map: that of [map_to_list]. *)
Definition range_map_to_list (m : gmap Z Z) : list Z := (map_to_list m).*1.

(** A store with the two inputs, built by [NewSeriesData]. *)
Definition test_heap : heap :=
  <[1%nat := NewSeriesData range_map_to_list vals1]>
    (<[2%nat := NewSeriesData range_map_to_list vals2]> ∅).

(** ** Containers of the tests *)

(** [case2] of the tests. *)
Definition case2 : gmap Z Z := list_to_map [(32, -7); (-5, 20)].

Definition case2_series : Series := NewSeriesData range_map_to_list case2.
Definition caser_series : Series := NewSeriesData range_map_to_list caser.

(** The container left by [Set(7, 8)], [Get(3)], [Remove(4)] and
    [Compact()] on the series of [caser]. *)
Definition caser_worked : Series :=
  mkSeries (list_to_map [(0, 0); (2, 10); (5, 9); (7, 8); (30, 0)])
    [0; 2; 5; 7; 30] [].

(** ** Further notions for the properties of the code *)

(** The values of the type [int64]. *)
Definition int64 (z : Z) : Prop := - 2 ^ 63 ≤ z < 2 ^ 63.

(** [k] is the least key of [m] that is at least [x]. *)
Definition is_ceiling (m : gmap Z Z) (x k : Z) : Prop :=
  is_Some (m !! k) ∧ x ≤ k ∧ ∀ k', is_Some (m !! k') → x ≤ k' → k ≤ k'.

(** [for x, y := range data { s.Set(x, y) }], as the tests fill a container,
    with the keys in the order of the iteration. *)
Definition Set_each (s : Series) (data : gmap Z Z) (keys : list Z) : Series :=
  foldl (λ s key, Set_ s key (mapget data key)) s keys.

(** [for x := range data { s.Remove(x) }], as the tests empty a container,
    with the keys in the order of the iteration. *)
Fixpoint Remove_each (s : Series) (keys : list Z) : res Series :=
  match keys with
  | [] => Done s
  | x :: keys' => s' ← Remove s x; Remove_each s' keys'
  end.

(** The sum of a list of integers, without wrap-around. *)
Definition total (vals : list Z) : Z := foldr Z.add 0 vals.

(** The series of [caser] after the merge of its buffer, and after
    [Compact]. *)
Definition caser_merged : Series :=
  mkSeries caser [0; 2; 4; 5; 10; 20; 22; 30] [].

(** * Properties *)

(** ** Lists in strictly increasing order *)

Lemma StronglySorted_le_lt (l : list Z) :
  StronglySorted Z.le l → NoDup l → StronglySorted Z.lt l.
Proof.
  induction 1 as [|a l Hl IH Ha]; intros Hnd; [constructor|].
  apply NoDup_cons in Hnd as [Hnotin Hnd].
  constructor; [by apply IH|].
  rewrite Forall_forall in Ha |- *. intros b Hb.
  specialize (Ha b Hb). assert (a ≠ b) by (intros ->; done). lia.
Qed.

Lemma StronglySorted_lt_lookup (l : list Z) (p q : nat) (a b : Z) :
  StronglySorted Z.lt l → l !! p = Some a → l !! q = Some b →
  (p < q)%nat → a < b.
Proof.
  intros Hl. revert p q. induction Hl as [|c l Hl IH Hc]; intros p q Hp Hq Hpq.
  { by rewrite lookup_nil in Hp. }
  destruct q as [|q]; [lia|]. simpl in Hq.
  destruct p as [|p]; simpl in Hp.
  - injection Hp as ->. rewrite Forall_forall in Hc.
    apply Hc. by eapply list_elem_of_lookup_2.
  - eapply IH; eauto. lia.
Qed.

Lemma StronglySorted_lt_NoDup (l : list Z) : StronglySorted Z.lt l → NoDup l.
Proof.
  induction 1 as [|a l Hl IH Ha]; constructor; [|done].
  intros Hin. rewrite Forall_forall in Ha. specialize (Ha a Hin). lia.
Qed.

Lemma sorted_lt_unique (l1 l2 : list Z) :
  StronglySorted Z.lt l1 → StronglySorted Z.lt l2 → l1 ≡ₚ l2 → l1 = l2.
Proof.
  apply StronglySorted_unique_strong. intros; lia.
Qed.

Lemma sort_slice_sorted (l : list Z) :
  NoDup l → StronglySorted Z.lt (sort_slice l).
Proof.
  intros Hnd. apply StronglySorted_le_lt.
  - apply StronglySorted_merge_sort; apply _.
  - unfold sort_slice. by rewrite merge_sort_Permutation.
Qed.

Lemma sort_slice_perm (l : list Z) : sort_slice l ≡ₚ l.
Proof. apply merge_sort_Permutation. Qed.

(** ** [sort] *)

Lemma sort_points (s : Series) : points (sort s) = points s.
Proof. unfold sort. by case_decide. Qed.

Lemma sort_unsorted (s : Series) : unsorted (sort s) = [].
Proof.
  unfold sort. case_decide as H; [|done].
  by apply nil_length_inv.
Qed.

Lemma sort_perm (s : Series) :
  sorted (sort s) ≡ₚ sorted s ++ unsorted s.
Proof.
  unfold sort. case_decide as H; simpl.
  - apply nil_length_inv in H. rewrite H. by rewrite app_nil_r.
  - apply sort_slice_perm.
Qed.

Lemma sort_wf (s : Series) : wf s → wf (sort s).
Proof.
  intros [Hk Hnd Hs]. split.
  - intros k. rewrite sort_unsorted, app_nil_r, sort_perm.
    unfold stored. rewrite sort_points. apply Hk.
  - rewrite sort_unsorted, app_nil_r, sort_perm. done.
  - unfold sort. case_decide; [done|]. simpl.
    apply StronglySorted_Sorted, sort_slice_sorted, Hnd.
Qed.

Lemma sort_sorted_keys (s : Series) (k : Z) :
  wf s → k ∈ sorted (sort s) ↔ stored s k.
Proof.
  intros Hwf. rewrite sort_perm. apply Hwf.
Qed.

Lemma sort_strongly_sorted (s : Series) :
  wf s → StronglySorted Z.lt (sorted (sort s)).
Proof.
  intros Hwf. apply Sorted_StronglySorted; [apply _|].
  by apply sort_wf.
Qed.

Lemma sort_eta (s : Series) :
  sort s = mkSeries (points s) (sorted (sort s)) [].
Proof.
  rewrite <-(sort_points s), <-(sort_unsorted s). by destruct (sort s).
Qed.

Lemma sort_idem (s : Series) : unsorted s = [] → sort s = s.
Proof. intros H. unfold sort. rewrite H. done. Qed.

(** ** [find] *)

Lemma index_Done (l : list Z) (i : Z) (v : Z) :
  index l i = Done v ↔ 0 ≤ i ∧ l !! Z.to_nat i = Some v.
Proof.
  unfold index. case_decide; [|split; [done|lia]].
  destruct (l !! Z.to_nat i) as [w|]; split.
  - intros [= ->]. done.
  - intros [_ [= ->]]. done.
  - done.
  - intros [_ [=]].
Qed.

Lemma index_in_range (l : list Z) (i : Z) :
  0 ≤ i < Z.of_nat (length l) → ∃ v, index l i = Done v ∧ l !! Z.to_nat i = Some v.
Proof.
  intros Hi. destruct (lookup_lt_is_Some_2 l (Z.to_nat i)) as [v Hv]; [lia|].
  exists v. split; [|done]. apply index_Done. split; [lia|done].
Qed.

Lemma half_between (i j : Z) :
  0 ≤ i → j - i > 1 → i < (i + j + 1) `quot` 2 < j.
Proof.
  intros Hi Hij.
  pose proof (Z.quot_rem' (i + j + 1) 2) as Hqr.
  pose proof (Z.rem_bound_pos (i + j + 1) 2) as Hr.
  lia.
Qed.

(** The loop terminates within [j - i] iterations, without panic, at an
    index of the interval; on a strictly increasing list it keeps the
    bracketing. *)
Lemma find_loop_spec (fuel : nat) (l : list Z) (x i j : Z) :
  0 ≤ i < j → j ≤ Z.of_nat (length l) → j - i ≤ Z.of_nat fuel →
  ∃ r, find_loop fuel l x i j = Done r ∧ i ≤ r < j ∧
       (StronglySorted Z.lt l → bracket l x i j → bracket l x r (r + 1)).
Proof.
  revert i j. induction fuel as [|fuel IH]; intros i j Hij Hj Hfuel.
  - assert (j = i + 1) as -> by lia. simpl.
    case_decide; [lia|]. exists i. split; [done|]. split; [lia|done].
  - simpl. case_decide as Hgt.
    + pose proof (half_between i j ltac:(lia) Hgt) as Hhalf.
      set (half := (i + j + 1) `quot` 2) in *.
      destruct (index_in_range l half) as (v & Hv & Hlv); [lia|].
      rewrite Hv. simpl.
      case_decide as Hxv; [|case_decide as Hxgt].
      * exists half. split; [done|]. split; [lia|].
        intros Hl _. split; [exists v; split; [done|lia]|].
        intros b Hb. rewrite Hxv.
        eapply (StronglySorted_lt_lookup l (Z.to_nat half) (Z.to_nat (half + 1)));
          eauto; lia.
      * destruct (IH half j) as (r & Hr & Hrange & Hbr); [lia..|].
        exists r. split; [done|]. split; [lia|].
        intros Hl [_ Hb]. apply Hbr; [done|].
        split; [exists v; split; [done|lia]|done].
      * destruct (IH i half) as (r & Hr & Hrange & Hbr); [lia..|].
        exists r. split; [done|]. split; [lia|].
        intros Hl [Ha _]. apply Hbr; [done|].
        split; [done|]. intros b Hb. rewrite Hlv in Hb. injection Hb as <-. lia.
    + exists i. split; [done|]. split; [lia|].
      assert (j = i + 1) as -> by lia. done.
Qed.

(** [find] always returns, with an index or -1. *)
Lemma find_total (s : Series) (x : Z) :
  ∃ r, find s x = Done r ∧ -1 ≤ r < Z.of_nat (length (sorted s)).
Proof.
  unfold find. destruct (sorted s) as [|k0 l] eqn:Hs.
  { exists (-1). simpl. split; [done|lia]. }
  case_decide.
  { exists (-1). split; [done|]. simpl; lia. }
  destruct (find_loop_spec (length (k0 :: l)) (k0 :: l) x 0
              (Z.of_nat (length (k0 :: l)))) as (r & Hr & Hrange & _);
    [simpl; lia..|].
  exists r. split; [done|lia].
Qed.

(** On a strictly increasing [sorted], [find] returns the index of the
    greatest element that is at most [x], or -1 when there is none. *)
Lemma find_sorted (s : Series) (x : Z) :
  StronglySorted Z.lt (sorted s) →
  ∃ r, find s x = Done r ∧
    ((r = -1 ∧ ∀ k, k ∈ sorted s → x < k) ∨
     (0 ≤ r ∧ ∃ k, sorted s !! Z.to_nat r = Some k ∧ k ≤ x ∧
        ∀ k', k' ∈ sorted s → k' ≤ x → k' ≤ k)).
Proof.
  intros Hl. unfold find. destruct (sorted s) as [|k0 l] eqn:Hs.
  { exists (-1). split; [done|]. left. split; [done|].
    intros k Hk. by apply elem_of_nil in Hk. }
  case_decide as Hx.
  { exists (-1). split; [done|]. left. split; [done|].
    intros k Hk. apply elem_of_cons in Hk as [->|Hk]; [done|].
    apply StronglySorted_inv in Hl as [_ Hall].
    rewrite Forall_forall in Hall. specialize (Hall k Hk). lia. }
  destruct (find_loop_spec (length (k0 :: l)) (k0 :: l) x 0
              (Z.of_nat (length (k0 :: l)))) as (r & Hr & Hrange & Hbr);
    [simpl; lia..|].
  exists r. split; [done|]. right. split; [lia|].
  destruct Hbr as [(k & Hk & Hkx) Hnext]; [done| |].
  { split; [exists k0; split; [done|lia]|].
    intros b Hb. apply lookup_lt_Some in Hb. lia. }
  exists k. split; [done|]. split; [done|].
  intros k' Hk' Hk'x.
  apply list_elem_of_lookup in Hk' as [p Hp].
  destruct (decide (p ≤ Z.to_nat r)%nat) as [Hle|Hgt].
  - destruct (decide (p = Z.to_nat r)) as [->|Hne].
    + rewrite Hk in Hp. injection Hp as ->. lia.
    + pose proof (StronglySorted_lt_lookup _ p (Z.to_nat r) k' k Hl Hp Hk).
      lia.
  - destruct (lookup_lt_is_Some_2 (k0 :: l) (Z.to_nat (r + 1))) as [b Hb].
    { apply lookup_lt_Some in Hp. lia. }
    specialize (Hnext b Hb).
    destruct (decide (p = Z.to_nat (r + 1))) as [->|Hne].
    + rewrite Hb in Hp. injection Hp as ->. lia.
    + pose proof (StronglySorted_lt_lookup _ (Z.to_nat (r + 1)) p b k' Hl Hb Hp).
      lia.
Qed.

(** ** The step function of a map *)

Lemma is_floor_unique (m : gmap Z Z) (x k1 k2 : Z) :
  is_floor m x k1 → is_floor m x k2 → k1 = k2.
Proof.
  intros (H1 & Hx1 & Hmax1) (H2 & Hx2 & Hmax2).
  specialize (Hmax1 k2 H2 Hx2). specialize (Hmax2 k1 H1 Hx1). lia.
Qed.

Lemma step_value_unique (m : gmap Z Z) (x y1 y2 : Z) :
  step_value m x y1 → step_value m x y2 → y1 = y2.
Proof.
  intros [(k1 & Hf1 & Hy1)|[Hnone1 ->]] [(k2 & Hf2 & Hy2)|[Hnone2 ->]].
  - rewrite (is_floor_unique _ _ _ _ Hf1 Hf2) in Hy1. congruence.
  - destruct Hf1 as (Hk & Hkx & _). specialize (Hnone2 k1 Hk). lia.
  - destruct Hf2 as (Hk & Hkx & _). specialize (Hnone1 k2 Hk). lia.
  - done.
Qed.

Lemma step_value_exact (m : gmap Z Z) (x y : Z) :
  m !! x = Some y → step_value m x y.
Proof.
  intros Hx. left. exists x. split; [|done].
  split; [by eexists|]. split; [lia|]. intros; lia.
Qed.

(** ** [Get] *)

(** [Get] returns on every state, and only ever merges the buffer. *)
Lemma Get_total (s : Series) (x : Z) :
  ∃ s' y, Get s x = Done (s', y) ∧ (s' = s ∨ s' = sort s).
Proof.
  unfold Get. destruct (points s !! x) as [y|]; [by eauto|].
  destruct (find_total (sort s) x) as (r & Hr & Hrange).
  rewrite Hr. simpl. case_decide; [by eauto|].
  destruct (index_in_range (sorted (sort s)) r) as (k & Hk & _); [lia|].
  rewrite Hk. simpl. eauto.
Qed.

Lemma Get_points (s s' : Series) (x y : Z) :
  Get s x = Done (s', y) → points s' = points s.
Proof.
  intros HG. destruct (Get_total s x) as (s1 & y1 & HG1 & [->| ->]);
    rewrite HG in HG1; injection HG1 as -> ->; [done|apply sort_points].
Qed.

Lemma Get_wf (s s' : Series) (x y : Z) :
  wf s → Get s x = Done (s', y) → wf s'.
Proof.
  intros Hwf HG. destruct (Get_total s x) as (s1 & y1 & HG1 & [->| ->]);
    rewrite HG in HG1; injection HG1 as -> ->; [done|by apply sort_wf].
Qed.

(** On a well-formed container [Get] computes the step function. *)
Lemma Get_step_value (s : Series) (x : Z) :
  wf s → ∃ s' y, Get s x = Done (s', y) ∧ step_value (points s) x y.
Proof.
  intros Hwf. unfold Get. destruct (points s !! x) as [y|] eqn:Hx.
  { exists s, y. split; [done|]. by apply step_value_exact. }
  destruct (find_sorted (sort s) x (sort_strongly_sorted s Hwf))
    as (r & Hr & [[-> Hnone]|(Hr0 & k & Hk & Hkx & Hmax)]); rewrite Hr; simpl.
  - exists (sort s), 0. split; [done|]. right. split; [|done].
    intros k Hk. apply Hnone. by apply sort_sorted_keys.
  - case_decide; [lia|].
    assert (index (sorted (sort s)) r = Done k) as -> by (by apply index_Done).
    simpl. exists (sort s), (mapget (points (sort s)) k). split; [done|].
    assert (stored s k) as [y Hy].
    { apply sort_sorted_keys; [done|]. by eapply list_elem_of_lookup_2. }
    left. exists k. unfold mapget. rewrite sort_points, Hy. simpl.
    split; [|done]. split; [by eexists|]. split; [done|].
    intros k' Hk' Hk'x. apply Hmax; [|done]. by apply sort_sorted_keys.
Qed.

Lemma Get_step_value_inv (s s' : Series) (x y : Z) :
  wf s → Get s x = Done (s', y) → step_value (points s) x y.
Proof.
  intros Hwf HG. destruct (Get_step_value s x Hwf) as (s1 & y1 & HG1 & Hv).
  rewrite HG in HG1. by injection HG1 as -> ->.
Qed.

(** C1. Floor interpolation: on every well-formed container [Get(x)]
    returns, and its result is the stored value at [x] when [x] is a stored
    key, the value at the greatest stored key below or at [x] otherwise,
    and 0 when no stored key is at most [x]; on an empty container it is 0.
    One of the cases always applies: there is a greatest stored key at most
    [x], or every stored key is above [x]. *)
Theorem Get_floor_correct (s : Series) (x : Z) :
  wf s →
  ∃ s' y, Get s x = Done (s', y) ∧
    (∀ v, points s !! x = Some v → y = v) ∧
    (∀ k v, is_floor (points s) x k → points s !! k = Some v → y = v) ∧
    ((∀ k, stored s k → x < k) → y = 0) ∧
    (points s = ∅ → y = 0) ∧
    ((∃ k, is_floor (points s) x k) ∨ (∀ k, stored s k → x < k)).
Proof.
  intros Hwf. destruct (Get_step_value s x Hwf) as (s' & y & HG & Hv).
  exists s', y. split; [done|].
  split; [|split; [|split; [|split]]].
  - intros v Hx. eapply step_value_unique; [done|]. by apply step_value_exact.
  - intros k v Hk Hkv. eapply step_value_unique; [done|]. left. eauto.
  - intros Hnone. eapply step_value_unique; [done|]. by right.
  - intros Hempty. eapply step_value_unique; [done|]. right. split; [|done].
    intros k [v Hk]. rewrite Hempty, lookup_empty in Hk. done.
  - destruct Hv as [(k & Hk & _)|[Hnone _]]; [left; by exists k|by right].
Qed.

Lemma wfb_wf (s : Series) : wfb s = true → wf s.
Proof.
  unfold wfb. rewrite !andb_true_iff, !bool_decide_eq_true.
  intros [[Hdom Hnd] Hs]. split; [|done..].
  intros k. unfold stored. rewrite <-elem_of_dom, <-Hdom.
  by rewrite elem_of_list_to_set.
Qed.

(** ** Constructors and [Set] *)

Lemma NewSeries_wf : wf NewSeries.
Proof. by apply wfb_wf. Qed.


Lemma Set_wf (s : Series) (x y : Z) : wf s → wf (Set_ s x y).
Proof.
  intros [Hk Hnd Hs]. unfold Set_, stored in *.
  destruct (points s !! x) as [v|] eqn:Hx; split; unfold stored; simpl;
    try done.
  - intros k. rewrite Hk, lookup_insert. case_decide; [|done].
    subst k. rewrite Hx. split; by eauto.
  - intros k. rewrite app_assoc, elem_of_app, Hk, list_elem_of_singleton.
    rewrite lookup_insert. case_decide as Hxk.
    + subst k. split; by eauto.
    + split; [intros [?|?]; [done|congruence]|by left].
  - rewrite app_assoc. apply NoDup_app. split; [done|].
    split; [|apply NoDup_singleton].
    intros k Hin ->%list_elem_of_singleton.
    apply Hk in Hin. rewrite Hx in Hin. by destruct Hin.
Qed.

Section constructors.

Variable range_keys : gmap Z Z → list Z.
Hypothesis range_keys_perm : ∀ m, range_keys m ≡ₚ (map_to_list m).*1.

Lemma range_keys_elem (m : gmap Z Z) (k : Z) :
  k ∈ range_keys m ↔ is_Some (m !! k).
Proof.
  rewrite range_keys_perm, list_elem_of_fmap. split.
  - intros ([k' v] & -> & Hin). apply elem_of_map_to_list in Hin. by eexists.
  - intros [v Hv]. exists (k, v). split; [done|]. by apply elem_of_map_to_list.
Qed.

Lemma range_keys_NoDup (m : gmap Z Z) : NoDup (range_keys m).
Proof. rewrite range_keys_perm. apply NoDup_fst_map_to_list. Qed.

Lemma NewSeriesData_loop (data : gmap Z Z) (keys : list Z)
    (pts : gmap Z Z) (uns : list Z) :
  ∃ pts', foldl (λ '(points, unsorted) key,
             (<[key := mapget data key]> points, unsorted ++ [key]))
          (pts, uns) keys = (pts', uns ++ keys) ∧
    ∀ k, pts' !! k =
         if decide (k ∈ keys) then Some (mapget data k) else pts !! k.
Proof.
  revert pts uns. induction keys as [|a keys IH]; intros pts uns.
  { exists pts. rewrite app_nil_r. split; [done|]. intros k.
    rewrite decide_False; [done|]. apply not_elem_of_nil. }
  cbn [foldl].
  destruct (IH (<[a := mapget data a]> pts) (uns ++ [a])) as (pts' & -> & Hl).
  exists pts'. rewrite <-app_assoc. split; [done|]. intros k.
  rewrite Hl, lookup_insert.
  destruct (decide (k ∈ keys)) as [Hin|Hin].
  { rewrite decide_True; [done|by right]. }
  destruct (decide (a = k)) as [->|Hne].
  - rewrite decide_True; [done|by left].
  - rewrite decide_False; [done|].
    intros [->|?]%elem_of_cons; done.
Qed.

Lemma NewSeriesData_eq (data : gmap Z Z) :
  NewSeriesData range_keys data = mkSeries data [] (range_keys data).
Proof.
  unfold NewSeriesData.
  destruct (NewSeriesData_loop data (range_keys data) ∅ []) as (pts & -> & Hl).
  simpl. f_equal. apply map_eq. intros k. rewrite Hl.
  case_decide as Hin.
  - apply range_keys_elem in Hin as [v Hv]. unfold mapget. by rewrite Hv.
  - rewrite lookup_empty. symmetry. apply eq_None_not_Some.
    by rewrite <-range_keys_elem.
Qed.

Lemma NewSeriesData_wf (data : gmap Z Z) : wf (NewSeriesData range_keys data).
Proof.
  rewrite NewSeriesData_eq. split; unfold stored; simpl.
  - apply range_keys_elem.
  - apply range_keys_NoDup.
  - constructor.
Qed.

End constructors.

(** ** [Remove] *)

Lemma Remove_absent (s : Series) (x : Z) :
  points s !! x = None → Remove s x = Done s.
Proof. intros H. unfold Remove. by rewrite H. Qed.

Lemma remove_middle_wf (pts : gmap Z Z) (l1 l2 : list Z) (x : Z) :
  wf (mkSeries pts (l1 ++ x :: l2) []) →
  wf (mkSeries (delete x pts) (l1 ++ l2) []).
Proof.
  intros [Hk Hnd Hs]. unfold stored in *. simpl in *.
  rewrite app_nil_r in *.
  apply NoDup_app in Hnd as (Hnd1 & Hdisj & [Hx2 Hnd2]%NoDup_cons).
  assert (x ∉ l1) as Hx1.
  { intros Hin. apply (Hdisj x Hin). by left. }
  apply (Sorted_StronglySorted _) in Hs.
  apply StronglySorted_app in Hs as (Hlt & Hs1 & [Hall Hs2]%StronglySorted_cons).
  split; unfold stored; simpl; rewrite ?app_nil_r.
  - intros k. rewrite lookup_delete. case_decide as Hxk.
    + subst k. rewrite elem_of_app. split; [by intros [?|?]|by intros []].
    + rewrite <-Hk, !elem_of_app, elem_of_cons. split.
      * intros [?|?]; [by left|right; by right].
      * intros [?|[?|?]]; [by left|congruence|by right].
  - apply NoDup_app. split; [done|]. split; [|done].
    intros k Hk1 Hk2. apply (Hdisj k Hk1). by right.
  - apply StronglySorted_Sorted, StronglySorted_app. split; [|done].
    intros x1 x2 H1 H2. apply Hlt; [done|by right].
Qed.

(** On a well-formed container [Remove] of a stored key returns, and
    deletes that key from the map and from [sorted]. *)
Lemma Remove_stored (s : Series) (x : Z) :
  wf s → stored s x →
  ∃ s', Remove s x = Done s' ∧ points s' = delete x (points s) ∧ wf s'.
Proof.
  intros Hwf [v Hx]. unfold Remove. rewrite Hx.
  pose proof (sort_wf s Hwf) as Hwf'.
  destruct (find_sorted (sort s) x (sort_strongly_sorted s Hwf))
    as (r & Hr & [[-> Hnone]|(Hr0 & k & Hk & Hkx & Hmax)]); rewrite Hr; simpl.
  { assert (x ∈ sorted (sort s)) as Hin.
    { apply sort_sorted_keys; [done|]. by eexists. }
    specialize (Hnone x Hin). lia. }
  assert (k = x) as ->.
  { assert (x ∈ sorted (sort s)) as Hin.
    { apply sort_sorted_keys; [done|]. by eexists. }
    specialize (Hmax x Hin). lia. }
  pose proof (lookup_lt_Some _ _ _ Hk) as Hlen.
  unfold splice. case_decide as Hb; [|lia]. simpl.
  eexists. split; [done|]. simpl. rewrite sort_points. split; [done|].
  replace (Z.to_nat (r + 1)) with (S (Z.to_nat r)) by lia.
  rewrite sort_unsorted.
  apply remove_middle_wf.
  rewrite (take_drop_middle _ _ _ Hk), <-sort_eta. done.
Qed.

Lemma kept_ext (v v' : Z → Z) (y : Z) (xs : list Z) :
  (∀ k, k ∈ xs → v k = v' k) → kept v y xs = kept v' y xs.
Proof.
  revert y. induction xs as [|x xs IH]; intros y Hext; [done|]. simpl.
  rewrite <-(Hext x) by left.
  case_decide; [|f_equal]; apply IH; intros k Hk; apply Hext; by right.
Qed.

Lemma kept_elem (v : Z → Z) (y : Z) (xs : list Z) (k : Z) :
  k ∈ kept v y xs → k ∈ xs.
Proof.
  revert y. induction xs as [|x xs IH]; intros y; [done|]. simpl.
  case_decide.
  - intros Hk. right. by eapply IH.
  - intros [->|Hk]%elem_of_cons; [by left|]. right. by eapply IH.
Qed.

Lemma kept_sorted (v : Z → Z) (y : Z) (xs : list Z) :
  StronglySorted Z.lt xs → StronglySorted Z.lt (kept v y xs).
Proof.
  intros Hs. revert y. induction Hs as [|x xs Hs IH Hall]; intros y.
  { constructor. }
  simpl. case_decide; [apply IH|].
  constructor; [apply IH|].
  rewrite Forall_forall in Hall |- *. intros k Hk.
  apply Hall. by eapply kept_elem.
Qed.

Lemma kept_idem (v : Z → Z) (y : Z) (xs : list Z) :
  kept v y (kept v y xs) = kept v y xs.
Proof.
  revert y. induction xs as [|x xs IH]; intros y; [done|]. simpl.
  case_decide as Hx; [apply IH|].
  simpl. rewrite decide_False by done. f_equal. apply IH.
Qed.

Lemma kept_head_below (v : Z → Z) (y : Z) (a : Z) (xs : list Z) :
  StronglySorted Z.lt (a :: xs) → a ∉ kept v y xs.
Proof.
  intros [Hall _]%StronglySorted_cons Hin.
  apply kept_elem in Hin. rewrite Forall_forall in Hall.
  specialize (Hall a Hin). lia.
Qed.

Lemma sorted_cons_lt (r : Z) (xs : list Z) (k : Z) :
  StronglySorted Z.lt (r :: xs) → k ∈ xs → r < k.
Proof.
  intros [Hall _]%StronglySorted_cons Hin.
  rewrite Forall_forall in Hall. by apply Hall.
Qed.

Lemma sorted_cons_skip (r a : Z) (xs : list Z) :
  StronglySorted Z.lt (r :: a :: xs) → StronglySorted Z.lt (r :: xs).
Proof.
  intros [Hall [_ Hs]%StronglySorted_cons]%StronglySorted_cons.
  constructor; [done|]. by apply Forall_cons in Hall as [_ ?].
Qed.

(** Moving the lower end of the list from [r] to [a] does not change the
    immediate predecessor of a key above [a]. *)
Lemma pred_in_shift (r a : Z) (l : list Z) (k p : Z) :
  r < a → a < k →
  pred_in (r :: a :: l) k p ↔ pred_in (a :: l) k p.
Proof.
  intros Hra Hak. unfold pred_in. split.
  - intros (Hp & Hpk & Hno). split; [|split; [done|]].
    + apply elem_of_cons in Hp as [->|Hp]; [|done].
      exfalso. apply (Hno a); [right; left|lia].
    + intros q Hq. apply Hno. by right.
  - intros (Hp & Hpk & Hno). split; [by right|]. split; [done|].
    intros q [->|Hq]%elem_of_cons; [|by apply Hno].
    intros [Hpr _].
    apply elem_of_cons in Hp as [->|Hp]; [lia|].
    apply (Hno a); [by left|]. split; [|done].
    assert (¬ (p < a < k) ) as Hn by (apply Hno; left).
    lia.
Qed.

(** A key is dropped exactly when its value is that of the retained key
    immediately below it. *)
Lemma kept_dropped_iff_retained (v : Z → Z) (r : Z) (xs : list Z) (k : Z) :
  StronglySorted Z.lt (r :: xs) → k ∈ xs →
  k ∉ kept v (v r) xs ↔ ∃ p, pred_in (r :: kept v (v r) xs) k p ∧ v p = v k.
Proof.
  revert r. induction xs as [|a xs IH]; intros r Hs Hk.
  { by apply elem_of_nil in Hk. }
  pose proof (sorted_cons_lt r (a :: xs) a Hs ltac:(left)) as Hra.
  assert (StronglySorted Z.lt (a :: xs)) as Hs'.
  { by apply StronglySorted_cons in Hs as [_ ?]. }
  simpl. destruct (decide (v a = v r)) as [Heq|Hne].
  - apply elem_of_cons in Hk as [->|Hk].
    + split; [intros _|intros _; by apply kept_head_below].
      exists r. split; [|done]. split; [by left|]. split; [done|].
      intros q [->|Hq]%elem_of_cons; [lia|].
      apply kept_elem in Hq.
      pose proof (sorted_cons_lt a xs q Hs' Hq). lia.
    + apply IH; [|done]. by eapply sorted_cons_skip.
  - apply elem_of_cons in Hk as [->|Hk].
    + split; [intros Hn; exfalso; apply Hn; by left|].
      intros (p & (Hp & Hpa & _) & Hv). exfalso.
      apply elem_of_cons in Hp as [->|Hp]; [congruence|].
      apply elem_of_cons in Hp as [->|Hp]; [lia|].
      apply kept_elem in Hp.
      pose proof (sorted_cons_lt a xs p Hs' Hp). lia.
    + pose proof (sorted_cons_lt a xs k Hs' Hk) as Hak.
      rewrite not_elem_of_cons. rewrite (IH a Hs' Hk).
      split.
      * intros (_ & p & Hp & Hv). exists p. split; [|done].
        by apply pred_in_shift.
      * intros (p & Hp & Hv). split; [lia|]. exists p. split; [|done].
        by apply pred_in_shift in Hp.
Qed.

(** A key is dropped exactly when its value is that of the key immediately
    below it in the list before compaction. *)
Lemma kept_dropped_iff_original (v : Z → Z) (r : Z) (xs : list Z) (k : Z) :
  StronglySorted Z.lt (r :: xs) → k ∈ xs →
  k ∉ kept v (v r) xs ↔ ∃ p, pred_in (r :: xs) k p ∧ v p = v k.
Proof.
  revert r. induction xs as [|a xs IH]; intros r Hs Hk.
  { by apply elem_of_nil in Hk. }
  pose proof (sorted_cons_lt r (a :: xs) a Hs ltac:(left)) as Hra.
  assert (StronglySorted Z.lt (a :: xs)) as Hs'.
  { by apply StronglySorted_cons in Hs as [_ ?]. }
  assert (∀ q, q ∈ xs → a < q) as Hxs.
  { intros q Hq. by eapply sorted_cons_lt. }
  apply elem_of_cons in Hk as [->|Hk].
  - simpl. destruct (decide (v a = v r)) as [Heq|Hne].
    + split; [intros _|intros _; by apply kept_head_below].
      exists r. split; [|done]. split; [by left|]. split; [done|].
      intros q [->|[->|Hq]%elem_of_cons]%elem_of_cons; [lia..|].
      specialize (Hxs q Hq). lia.
    + split; [intros Hn; exfalso; apply Hn; by left|].
      intros (p & (Hp & Hpa & _) & Hv). exfalso.
      apply elem_of_cons in Hp as [->|Hp]; [congruence|].
      apply elem_of_cons in Hp as [->|Hp]; [lia|].
      specialize (Hxs p Hp). lia.
  - pose proof (Hxs k Hk) as Hak.
    assert (k ∉ kept v (v r) (a :: xs) ↔ k ∉ kept v (v a) xs) as ->.
    { simpl. destruct (decide (v a = v r)) as [Heq|Hne].
      - by rewrite Heq.
      - rewrite not_elem_of_cons. split; [by intros [_ ?]|]. intros ?.
        split; [lia|done]. }
    rewrite (IH a Hs' Hk).
    split; intros (p & Hp & Hv); exists p; (split; [|done]).
    + by apply (pred_in_shift r a xs k p).
    + by apply (pred_in_shift r a xs k p) in Hp.
Qed.

(** ** [Compact] *)

Lemma mapget_delete_ne (m : gmap Z Z) (x k : Z) :
  x ≠ k → mapget (delete x m) k = mapget m k.
Proof. intros H. unfold mapget. by rewrite lookup_delete_ne. Qed.

(** Past index 0 the loop of [Compact] appends the retained keys to
    [newSorted] and deletes the others from the map. *)
Lemma compact_loop_kept (i : Z) (xs : list Z) (pts : gmap Z Z)
    (ns : list Z) (lastY : Z) :
  i > 0 → NoDup xs →
  ∃ pts', compact_loop i xs pts ns lastY
            = (pts', ns ++ kept (mapget pts) lastY xs) ∧
    ∀ k, pts' !! k =
         if decide (k ∈ xs ∧ k ∉ kept (mapget pts) lastY xs) then None
         else pts !! k.
Proof.
  revert i pts ns lastY.
  induction xs as [|x xs IH]; intros i pts ns lastY Hi Hnd.
  { exists pts. cbn [compact_loop kept]. rewrite app_nil_r.
    split; [done|]. intros k.
    rewrite decide_False; [done|]. intros [H _]. by apply elem_of_nil in H. }
  apply NoDup_cons in Hnd as [Hx Hnd].
  cbn [compact_loop kept]. rewrite decide_True by done.
  destruct (decide (mapget pts x = lastY)) as [Heq|Hne].
  - destruct (IH (i + 1) (delete x pts) ns lastY) as (pts' & -> & Hl);
      [lia|done|].
    assert (kept (mapget (delete x pts)) lastY xs = kept (mapget pts) lastY xs)
      as Hkept.
    { apply kept_ext. intros k Hk. apply mapget_delete_ne. by intros ->. }
    rewrite Hkept in *. exists pts'. split; [done|]. intros k. rewrite Hl.
    destruct (decide (k = x)) as [->|Hkx].
    + rewrite lookup_delete_eq.
      rewrite (decide_True (P := x ∈ x :: xs ∧ _)).
      * by case_decide.
      * split; [by left|]. intros Hin. by apply kept_elem in Hin.
    + rewrite lookup_delete_ne by done.
      destruct (decide (k ∈ xs ∧ k ∉ kept (mapget pts) lastY xs)) as [[H1 H2]|Hn].
      * rewrite decide_True; [done|]. split; [by right|done].
      * rewrite decide_False; [done|]. intros [H1 H2]. apply Hn.
        split; [|done]. by apply elem_of_cons in H1 as [?|?].
  - destruct (IH (i + 1) pts (ns ++ [x]) (mapget pts x)) as (pts' & -> & Hl);
      [lia|done|].
    exists pts'. rewrite <-app_assoc. split; [done|]. intros k. rewrite Hl.
    destruct (decide (k = x)) as [->|Hkx].
    + rewrite decide_False by (by intros [? _]).
      rewrite decide_False; [done|]. intros [_ Hn]. apply Hn. by left.
    + destruct (decide (k ∈ xs ∧ k ∉ kept (mapget pts) (mapget pts x) xs))
        as [[H1 H2]|Hn].
      * rewrite decide_True; [done|]. split; [by right|].
        by intros [?|?]%elem_of_cons.
      * rewrite decide_False; [done|]. intros [H1 H2]. apply Hn.
        apply elem_of_cons in H1 as [?|?]; [done|]. split; [done|].
        intros Hin. apply H2. by right.
Qed.

Lemma retained_elem (s : Series) (k : Z) :
  k ∈ retained s → k ∈ sorted (sort s).
Proof.
  unfold retained. destruct (sorted (sort s)) as [|x0 xs]; [done|].
  intros [->|Hk]%elem_of_cons; [by left|]. right. by eapply kept_elem.
Qed.

Lemma retained_sorted (s : Series) :
  wf s → StronglySorted Z.lt (retained s).
Proof.
  intros Hwf. pose proof (sort_strongly_sorted s Hwf) as Hs.
  unfold retained. destruct (sorted (sort s)) as [|x0 xs]; [constructor|].
  apply StronglySorted_cons in Hs as [Hall Hs].
  constructor; [by apply kept_sorted|].
  rewrite Forall_forall in Hall |- *. intros k Hk. apply Hall.
  by eapply kept_elem.
Qed.

(** With two stored points or more, [Compact] returns the container of the
    retained keys, fully merged. *)
Lemma Compact_large (s : Series) :
  wf s → ¬ Size s < 2 →
  ∃ pts', Compact s = Done (mkSeries pts' (retained s) []) ∧
    ∀ k, pts' !! k = if decide (k ∈ retained s) then points s !! k else None.
Proof.
  intros Hwf Hsize. unfold Compact. rewrite decide_False by done.
  pose proof (sort_strongly_sorted s Hwf) as Hs.
  pose proof (sort_sorted_keys s) as Hkeys.
  unfold retained. destruct (sorted (sort s)) as [|x0 xs] eqn:Hsorted.
  { exfalso. destruct (map_size_ne_0_lookup_1 (points s)) as [k Hk].
    { unfold Size in Hsize. lia. }
    apply (Hkeys k Hwf) in Hk. by apply elem_of_nil in Hk. }
  assert (index (x0 :: xs) 0 = Done x0) as -> by done.
  cbn [mbind res_bind compact_loop]. rewrite decide_False by lia.
  rewrite sort_points, sort_unsorted.
  pose proof (StronglySorted_lt_NoDup _ Hs) as [Hx0 Hnd]%NoDup_cons.
  destruct (compact_loop_kept (0 + 1) xs (points s) [x0]
              (mapget (points s) x0)) as (pts' & -> & Hl); [lia|done|].
  exists pts'. split; [done|]. intros k. rewrite Hl.
  destruct (decide (k ∈ x0 :: kept (mapget (points s)) (mapget (points s) x0) xs))
    as [Hin|Hout].
  - rewrite decide_False; [done|]. intros [H1 H2].
    apply elem_of_cons in Hin as [->|Hin]; done.
  - destruct (decide (k ∈ xs)) as [Hk|Hk].
    + rewrite decide_True; [done|]. split; [done|].
      intros Hin. apply Hout. by right.
    + rewrite decide_False by (by intros [? _]).
      apply eq_None_not_Some. intros Hst. apply (Hkeys k Hwf) in Hst.
      apply elem_of_cons in Hst as [->|?]; [|done]. apply Hout. by left.
Qed.

Lemma pred_in_key (l : list Z) (m : gmap Z Z) (k p : Z) :
  (∀ q, q ∈ l ↔ is_Some (m !! q)) → pred_in l k p ↔ pred_key m k p.
Proof.
  intros Hl. unfold pred_in, pred_key. rewrite Hl.
  split; intros (Hp & Hpk & Hno); (split; [done|]); (split; [done|]);
    intros q Hq; apply Hno; by apply Hl.
Qed.

Lemma size_lt_2_unique (m : gmap Z Z) (a b : Z) :
  (size m < 2)%nat → is_Some (m !! a) → is_Some (m !! b) → a = b.
Proof.
  intros Hsize Ha Hb. destruct (decide (a = b)) as [|Hne]; [done|exfalso].
  pose proof (map_size_delete_Some a m Ha) as Hd.
  assert (size (delete a m) = 0%nat) as Hz by lia.
  apply map_size_empty_inv in Hz.
  destruct Hb as [v Hb].
  assert (delete a m !! b = Some v) as Hb' by (by rewrite lookup_delete_ne).
  rewrite Hz, lookup_empty in Hb'. done.
Qed.

Lemma mapget_eq_lookup (m : gmap Z Z) (a b : Z) :
  is_Some (m !! a) → is_Some (m !! b) →
  mapget m a = mapget m b ↔ m !! a = m !! b.
Proof.
  intros [va Ha] [vb Hb]. unfold mapget. rewrite Ha, Hb. simpl.
  split; [by intros ->|by intros [= ->]].
Qed.

Lemma Compact_small (s : Series) :
  wf s → Size s < 2 → Compact s = Done s ∧ compacts s s.
Proof.
  intros Hwf Hsize.
  assert (Compact s = Done s) as HC.
  { unfold Compact. by rewrite decide_True. }
  split; [done|]. split; [done|done| | |done].
  - intros k Hk. split; [done|].
    intros (p & (Hp & Hpk & _) & _). exfalso.
    assert (p = k); [|lia].
    apply (size_lt_2_unique (points s)); [unfold Size in Hsize; lia|done..].
  - intros k Hk. split; [done|].
    intros (p & (Hp & Hpk & _) & _). exfalso.
    assert (p = k); [|lia].
    apply (size_lt_2_unique (points s)); [unfold Size in Hsize; lia|done..].
Qed.

Lemma retained_stored (s : Series) (pts' : gmap Z Z) :
  wf s →
  (∀ k, pts' !! k = if decide (k ∈ retained s) then points s !! k else None) →
  ∀ k, k ∈ retained s ↔ is_Some (pts' !! k).
Proof.
  intros Hwf Hl k. rewrite Hl. case_decide as Hin.
  - split; [intros _|done]. apply retained_elem in Hin.
    by apply sort_sorted_keys in Hin.
  - split; [done|]. by intros [? ?].
Qed.

Lemma Compact_large_wf (s : Series) (pts' : gmap Z Z) :
  wf s →
  (∀ k, pts' !! k = if decide (k ∈ retained s) then points s !! k else None) →
  wf (mkSeries pts' (retained s) []).
Proof.
  intros Hwf Hl. pose proof (retained_sorted s Hwf) as Hs.
  split; unfold stored; simpl; rewrite ?app_nil_r.
  - by apply retained_stored.
  - by apply StronglySorted_lt_NoDup.
  - by apply StronglySorted_Sorted.
Qed.

Lemma retained_fix (s : Series) (pts' : gmap Z Z) :
  wf s →
  (∀ k, pts' !! k = if decide (k ∈ retained s) then points s !! k else None) →
  retained (mkSeries pts' (retained s) []) = retained s.
Proof.
  intros Hwf Hl. unfold retained at 1. rewrite sort_idem by done. simpl.
  pose proof (retained_sorted s Hwf) as Hs.
  unfold retained in *. destruct (sorted (sort s)) as [|x0 xs]; [done|].
  f_equal. set (v := mapget (points s)) in *.
  assert (∀ k, k ∈ x0 :: kept v (v x0) xs → mapget pts' k = v k) as Hv.
  { intros k Hk. unfold v, mapget. rewrite Hl. by rewrite decide_True. }
  rewrite (Hv x0) by left.
  rewrite (kept_ext (mapget pts') v).
  - apply kept_idem.
  - intros k Hk. apply Hv. by right.
Qed.

(** On a well-formed container [Compact] returns, and leaves a compacted
    container. *)
Lemma Compact_spec (s : Series) :
  wf s → ∃ s', Compact s = Done s' ∧ compacts s s'.
Proof.
  intros Hwf. destruct (decide (Size s < 2)) as [Hsmall|Hlarge].
  { exists s. by apply Compact_small. }
  destruct (Compact_large s Hwf Hlarge) as (pts' & HC & Hl).
  eexists. split; [done|].
  pose proof (retained_stored s pts' Hwf Hl) as Hst.
  pose proof (Compact_large_wf s pts' Hwf Hl) as Hwf'.
  pose proof (sort_strongly_sorted s Hwf) as Hs.
  pose proof (sort_sorted_keys s) as Hkeys.
  assert (∀ k, stored s k →
    (¬ k ∈ retained s ↔
       ∃ p, pred_in (retained s) k p ∧ points s !! p = points s !! k) ∧
    (¬ k ∈ retained s ↔
       ∃ p, pred_in (sorted (sort s)) k p ∧ points s !! p = points s !! k))
    as Hchar.
  { intros k Hk. pose proof Hk as Hin. apply (Hkeys k Hwf) in Hin.
    assert (∀ l p, (∀ q, q ∈ l → q ∈ sorted (sort s)) → pred_in l k p →
       mapget (points s) p = mapget (points s) k ↔
       points s !! p = points s !! k) as Hval.
    { intros l p Hsub (Hp & _). apply mapget_eq_lookup; [|done].
      by apply (Hkeys p Hwf), Hsub. }
    unfold retained in *. destruct (sorted (sort s)) as [|x0 xs].
    { by apply elem_of_nil in Hin. }
    apply elem_of_cons in Hin as [->|Hin].
    - split; (split; [intros Hn; exfalso; apply Hn; by left|]);
        intros (p & (Hp & Hpk & _) & _); exfalso.
      + apply elem_of_cons in Hp as [->|Hp]; [lia|].
        apply kept_elem in Hp.
        pose proof (sorted_cons_lt _ _ _ Hs Hp). lia.
      + apply elem_of_cons in Hp as [->|Hp]; [lia|].
        pose proof (sorted_cons_lt _ _ _ Hs Hp). lia.
    - pose proof (sorted_cons_lt _ _ _ Hs Hin) as Hlt.
      assert (k ∉ x0 :: kept (mapget (points s)) (mapget (points s) x0) xs
              ↔ k ∉ kept (mapget (points s)) (mapget (points s) x0) xs) as ->.
      { rewrite not_elem_of_cons. split; [by intros [_ ?]|]. intros ?.
        split; [lia|done]. }
      split.
      + rewrite (kept_dropped_iff_retained _ _ _ _ Hs Hin).
        assert (∀ q, q ∈ x0 :: kept (mapget (points s)) (mapget (points s) x0) xs
                     → q ∈ x0 :: xs) as Hsub.
        { intros q [->|Hq]%elem_of_cons; [by left|].
          right. by eapply kept_elem. }
        split; intros (p & Hp & Hv); exists p; (split; [done|]);
          by apply (Hval _ p Hsub Hp).
      + rewrite (kept_dropped_iff_original _ _ _ _ Hs Hin).
        split; intros (p & Hp & Hv); exists p; (split; [done|]);
          by apply (Hval _ p (λ q H, H) Hp). }
  split.
  - done.
  - simpl. intros k v. rewrite Hl. by case_decide.
  - intros k Hk. unfold stored at 1. simpl. rewrite <-Hst.
    rewrite (proj1 (Hchar k Hk)).
    split; intros (p & Hp & Hv); exists p; (split; [|done]);
      by apply (pred_in_key (retained s) pts').
  - intros k Hk. unfold stored at 1. simpl. rewrite <-Hst.
    rewrite (proj2 (Hchar k Hk)).
    split; intros (p & Hp & Hv); exists p; (split; [|done]);
      by apply (pred_in_key (sorted (sort s)) (points s)); [intros q; apply Hkeys|].
  - destruct (decide (Size (mkSeries pts' (retained s) []) < 2)) as [Hsm|Hlg].
    { by apply Compact_small. }
    destruct (Compact_large _ Hwf' Hlg) as (pts'' & HC' & Hl').
    rewrite HC'. rewrite (retained_fix s pts' Hwf Hl) in *.
    do 2 f_equal. apply map_eq. intros k. rewrite Hl'. simpl.
    case_decide as Hin; [done|]. symmetry. rewrite Hl. by rewrite decide_False.
Qed.

Lemma keys_elem (m : gmap Z Z) (k : Z) :
  k ∈ (map_to_list m).*1 ↔ is_Some (m !! k).
Proof.
  rewrite list_elem_of_fmap. split.
  - intros ([k' v] & -> & Hin). apply elem_of_map_to_list in Hin. by eexists.
  - intros [v Hv]. exists (k, v). split; [done|]. by apply elem_of_map_to_list.
Qed.

Lemma sort_canonical (s : Series) :
  wf s → sorted (sort s) = keys_sorted (points s).
Proof.
  intros Hwf. apply sorted_lt_unique.
  - by apply sort_strongly_sorted.
  - apply sort_slice_sorted, NoDup_fst_map_to_list.
  - unfold keys_sorted. rewrite sort_slice_perm. apply NoDup_Permutation.
    + apply StronglySorted_lt_NoDup. by apply sort_strongly_sorted.
    + apply NoDup_fst_map_to_list.
    + intros k. rewrite keys_elem. by apply sort_sorted_keys.
Qed.

Lemma retained_canonical (s : Series) :
  wf s → retained s = retained_of (points s).
Proof.
  intros Hwf. unfold retained, retained_of. by rewrite sort_canonical.
Qed.

Lemma size_lt_2_keys (m : gmap Z Z) (l : list Z) :
  (size m < 2)%nat → NoDup l → (∀ k, k ∈ l ↔ is_Some (m !! k)) →
  l = [] ∨ ∃ a, l = [a].
Proof.
  intros Hsize Hnd Hl. destruct l as [|a [|b l]]; [by left|right; by eexists|].
  exfalso. assert (a = b) as ->.
  { apply (size_lt_2_unique m); [done|apply Hl..]; [left|right; left]. }
  apply NoDup_cons in Hnd as [Hn _]. apply Hn. by left.
Qed.

Lemma Compact_points (s s' : Series) :
  wf s → Compact s = Done s' → points s' = compact_map (points s).
Proof.
  intros Hwf HC. unfold compact_map. rewrite <-retained_canonical by done.
  apply map_eq. intros k.
  destruct (decide (Size s < 2)) as [Hsmall|Hlarge].
  - destruct (Compact_small s Hwf Hsmall) as [HC' _].
    rewrite HC in HC'. injection HC' as ->.
    destruct (points s !! k) as [v|] eqn:Hk.
    + symmetry. apply map_lookup_filter_Some. split; [done|]. simpl.
      assert (k ∈ sorted (sort s)) as Hin.
      { apply sort_sorted_keys; [done|]. by eexists. }
      unfold retained.
      destruct (size_lt_2_keys (points s) (sorted (sort s))) as [Hnil|[a Ha]].
      * unfold Size in Hsmall. lia.
      * apply StronglySorted_lt_NoDup. by apply sort_strongly_sorted.
      * intros q. by apply sort_sorted_keys.
      * rewrite Hnil in Hin. by apply elem_of_nil in Hin.
      * rewrite Ha in *. done.
    + symmetry. apply map_lookup_filter_None. by left.
  - destruct (Compact_large s Hwf Hlarge) as (pts' & HC' & Hl).
    rewrite HC in HC'. injection HC' as ->. simpl. rewrite Hl.
    case_decide as Hin.
    + destruct (points s !! k) as [v|] eqn:Hk.
      * symmetry. by apply map_lookup_filter_Some.
      * symmetry. apply map_lookup_filter_None. by left.
    + symmetry. apply map_lookup_filter_None. right. intros v _. done.
Qed.

Lemma compact_caser : compact_map caser = caserc.
Proof. by vm_compute. Qed.

(** ** Properties of the container *)

Lemma stored_Size (s : Series) (x : Z) : stored s x → Size s ≠ 0.
Proof.
  intros [v Hx] Hsize. unfold Size in Hsize.
  assert (points s = ∅) as Hempty by (apply map_size_empty_inv; lia).
  by rewrite Hempty, lookup_empty in Hx.
Qed.

(** After the merge, [find] locates a stored key at its index. *)
Lemma find_stored (s : Series) (x : Z) :
  wf s → stored s x →
  ∃ r, find (sort s) x = Done r ∧ 0 ≤ r ∧
       sorted (sort s) !! Z.to_nat r = Some x.
Proof.
  intros Hwf Hx.
  assert (x ∈ sorted (sort s)) as Hin by (by apply sort_sorted_keys).
  destruct (find_sorted (sort s) x (sort_strongly_sorted s Hwf))
    as (r & Hr & [[-> Hnone]|(Hr0 & k & Hk & Hkx & Hmax)]).
  - specialize (Hnone x Hin). lia.
  - exists r. split; [done|]. split; [done|].
    specialize (Hmax x Hin). assert (k = x) as -> by lia. done.
Qed.

(** The step function of a compacted container is that of the original. *)
Lemma compacts_step_value (s s' : Series) (x y : Z) :
  compacts s s' → step_value (points s) x y → step_value (points s') x y.
Proof.
  intros [Hwf' Hsub Hret _ _] [(k & (Hk & Hkx & Hmax) & Hy)|[Hnone ->]].
  - assert (∀ q, stored s' q → stored s q) as Hss.
    { intros q [v Hq]. exists v. by apply Hsub. }
    left. destruct (decide (stored s' k)) as [Hk'|Hk'].
    + exists k. split.
      * split; [done|]. split; [done|]. intros q Hq. apply Hmax. by apply Hss.
      * destruct Hk' as [v Hv]. rewrite Hv. f_equal.
        apply Hsub in Hv. congruence.
    + pose proof Hk' as Hnk.
      apply (Hret k Hk) in Hk' as (p & (Hp & Hpk & Hno) & Hv).
      exists p. split.
      * split; [done|]. split; [lia|]. intros q Hq Hqx.
        specialize (Hmax q (Hss q Hq) Hqx).
        destruct (decide (q = k)) as [->|Hne]; [done|].
        specialize (Hno q Hq). lia.
      * destruct Hp as [v Hp]. rewrite Hp. f_equal.
        apply Hsub in Hp. congruence.
  - right. split; [|done]. intros q [v Hq]. apply Hnone. exists v.
    by apply Hsub.
Qed.

(** C4. Compaction preserves values: on every well-formed container and
    for every [x], [Get(x)] after [Compact()] returns what [Get(x)] returns
    before it. *)
Theorem Compact_preserves_Get (s : Series) (x : Z) :
  wf s →
  ∃ s1 y sc s2,
    Get s x = Done (s1, y) ∧ Compact s = Done sc ∧ Get sc x = Done (s2, y).
Proof.
  intros Hwf.
  destruct (Get_step_value s x Hwf) as (s1 & y & HG & Hv).
  destruct (Compact_spec s Hwf) as (sc & HC & Hcp).
  destruct (Get_step_value sc x (cp_wf _ _ Hcp)) as (s2 & y' & HG' & Hv').
  exists s1, y, sc, s2. split; [done|]. split; [done|].
  rewrite HG'. do 2 f_equal.
  eapply step_value_unique; [done|]. by eapply compacts_step_value.
Qed.

(** C5. Postcondition of [Compact]: on every well-formed container it
    returns; the points it leaves are points of the original; a stored
    point is removed exactly when its value equals that of the retained
    point immediately below it, which is also exactly when its value
    equals that of the stored point immediately below it before the call;
    the point of smallest key is never removed; and a container holding
    {0:0, 2:10, 4:10, 5:9, 10:8, 20:8, 22:8, 30:0} holds
    {0:0, 2:10, 5:9, 10:8, 30:0} afterwards. *)
Theorem Compact_postcondition (s : Series) :
  wf s →
  ∃ s', Compact s = Done s' ∧
    (∀ k v, points s' !! k = Some v → points s !! k = Some v) ∧
    (∀ k, stored s k →
       points s' !! k = None ↔
         ∃ p, pred_key (points s') k p ∧ points s !! p = points s !! k) ∧
    (∀ k, stored s k →
       points s' !! k = None ↔
         ∃ p, pred_key (points s) k p ∧ points s !! p = points s !! k) ∧
    (∀ k, stored s k → (∀ k', stored s k' → k ≤ k') →
       points s' !! k = points s !! k) ∧
    (points s = caser → points s' = caserc).
Proof.
  intros Hwf. destruct (Compact_spec s Hwf) as (s' & HC & Hcp).
  exists s'. split; [done|]. split; [apply Hcp|].
  assert (∀ k, points s' !! k = None ↔ ¬ stored s' k) as Hnone.
  { intros k. unfold stored. by rewrite eq_None_not_Some. }
  split; [|split; [|split]].
  - intros k Hk. rewrite Hnone. by apply Hcp.
  - intros k Hk. rewrite Hnone. by apply Hcp.
  - intros k Hk Hmin. destruct (decide (stored s' k)) as [[v Hv]|Hn].
    + rewrite Hv. symmetry. by apply Hcp.
    + apply (cp_original _ _ Hcp k Hk) in Hn as (p & (Hp & Hpk & _) & _).
      specialize (Hmin p Hp). lia.
  - intros Hpts. rewrite (Compact_points s s' Hwf HC), Hpts.
    apply compact_caser.
Qed.

(** C6. Compaction is idempotent: on every well-formed container a second
    [Compact] returns the container the first one left, so with the same
    stored points. *)
Theorem Compact_idempotent (s : Series) :
  wf s →
  ∃ s1 s2, Compact s = Done s1 ∧ Compact s1 = Done s2 ∧
           s2 = s1 ∧ points s2 = points s1.
Proof.
  intros Hwf. destruct (Compact_spec s Hwf) as (s1 & HC & Hcp).
  exists s1, s1. split; [done|]. split; [apply Hcp|done].
Qed.

(** C7. At a stored key [x] of a well-formed container, [Floor(x)] and
    [Ceiling(x)] both return [(x, true)]; [Ceiling] does so on the
    container as it is, leaving the pending buffer unmerged. *)
Theorem Floor_Ceiling_exact (s : Series) (x : Z) :
  wf s → stored s x →
  (∃ s', Floor s x = Done (s', (x, true))) ∧
  Ceiling s x = Done (s, (x, true)).
Proof.
  intros Hwf Hx. pose proof (stored_Size s x Hx) as Hsize. split.
  - unfold Floor. rewrite decide_False by done.
    destruct (find_stored s x Hwf Hx) as (r & -> & Hr0 & Hr).
    cbn [mbind res_bind]. rewrite decide_False by lia.
    assert (index (sorted (sort s)) r = Done x) as -> by (by apply index_Done).
    by eexists.
  - unfold Ceiling. rewrite decide_False by done.
    destruct Hx as [v ->]. done.
Qed.

(** C9. [Remove] is exact: when [x] is not stored, [Remove(x)] leaves the
    state as it is; when [x] is stored in a well-formed container, it
    returns a well-formed container without the point at [x], one point
    smaller, and with every other key and value unchanged. *)
Theorem Remove_exact (s : Series) (x : Z) :
  wf s →
  (¬ stored s x → Remove s x = Done s) ∧
  (stored s x →
     ∃ s', Remove s x = Done s' ∧ wf s' ∧
       points s' !! x = None ∧
       Size s' = Size s - 1 ∧
       ∀ k, k ≠ x → points s' !! k = points s !! k).
Proof.
  intros Hwf. split.
  - intros Hx. apply Remove_absent. by apply eq_None_not_Some.
  - intros Hx. destruct (Remove_stored s x Hwf Hx) as (s' & HR & Hpts & Hwf').
    exists s'. split; [done|]. split; [done|]. rewrite Hpts.
    split; [apply lookup_delete_eq|]. split.
    + unfold Size. rewrite Hpts, map_size_delete_Some by done.
      pose proof (stored_Size s x Hx) as Hne. unfold Size in Hne. lia.
    + intros k Hk. by apply lookup_delete_ne.
Qed.

(** ** Sequences of public operations *)

Lemma Floor_total (s : Series) (x : Z) :
  ∃ s' r, Floor s x = Done (s', r) ∧ (s' = s ∨ s' = sort s).
Proof.
  unfold Floor. case_decide; [by eauto|].
  destruct (find_total (sort s) x) as (r & -> & Hrange).
  cbn [mbind res_bind]. case_decide; [by eauto|].
  destruct (index_in_range (sorted (sort s)) r) as (k & -> & _); [lia|].
  cbn [mbind res_bind]. eauto.
Qed.

Lemma Ceiling_total (s : Series) (x : Z) :
  ∃ s' r, Ceiling s x = Done (s', r) ∧ (s' = s ∨ s' = sort s).
Proof.
  unfold Ceiling. case_decide; [by eauto|].
  destruct (points s !! x); [by eauto|].
  destruct (find_total (sort s) x) as (r & -> & Hrange).
  cbn [mbind res_bind]. case_decide; [by eauto|].
  destruct (index_in_range (sorted (sort s)) (r + 1)) as (k & -> & _); [lia|].
  cbn [mbind res_bind]. eauto.
Qed.

Lemma X0_state (s : Series) : (X0 s).1 = sort s.
Proof. unfold X0. by destruct (sorted (sort s)). Qed.

Lemma Copy_wf (s : Series) : wf s → wf (Copy s).2.
Proof.
  intros Hwf. unfold Copy. simpl. rewrite sort_points, <-sort_eta.
  by apply sort_wf.
Qed.

(** Every call on a well-formed container returns, and leaves a
    well-formed container. *)
Lemma exec_wf (o : op) (s : Series) :
  wf s → ∃ s', exec o s = Done s' ∧ wf s'.
Proof.
  intros Hwf. destruct o as [x y|x| |x|x| | | |x|x| |s0]; simpl.
  - eexists. split; [done|]. by apply Set_wf.
  - destruct (decide (stored s x)) as [Hx|Hx].
    + destruct (Remove_stored s x Hwf Hx) as (s' & HR & _ & Hwf'). eauto.
    + exists s. split; [|done]. apply Remove_absent.
      by apply eq_None_not_Some.
  - destruct (Compact_spec s Hwf) as (s' & HC & Hcp).
    exists s'. split; [done|apply Hcp].
  - destruct (Get_total s x) as (s' & y & HG & Hs'). rewrite HG.
    exists s'. split; [done|]. by eapply Get_wf.
  - eauto.
  - eauto.
  - eexists. split; [done|]. by apply sort_wf.
  - eexists. split; [done|]. rewrite X0_state. by apply sort_wf.
  - destruct (Floor_total s x) as (s' & r & -> & [->| ->]);
      (eexists; split; [done|]); [done|by apply sort_wf].
  - destruct (Ceiling_total s x) as (s' & r & -> & [->| ->]);
      (eexists; split; [done|]); [done|by apply sort_wf].
  - eexists. split; [done|]. by apply sort_wf.
  - eauto.
Qed.

Section reachability.

Variable range_keys : gmap Z Z → list Z.
Hypothesis range_keys_perm : ∀ m, range_keys m ≡ₚ (map_to_list m).*1.

Lemma reachable_wf (s : Series) : reachable range_keys s → wf s.
Proof.
  induction 1 as [|data|s _ IH|s o s' _ IH Hexec].
  - apply NewSeries_wf.
  - by apply NewSeriesData_wf.
  - by apply Copy_wf.
  - destruct (exec_wf o s IH) as (s1 & Hexec1 & Hwf).
    rewrite Hexec in Hexec1. by injection Hexec1 as ->.
Qed.

(** C3. Invariant preservation: every container reachable from
    [NewSeries] or [NewSeriesData] by public operations has the keys of
    [points] exactly once each in [sorted] or [unsorted], and [sorted]
    strictly increasing without duplicates; and every further operation
    on it returns, leaving a container with these properties. *)
Theorem invariant_preserved (s : Series) :
  reachable range_keys s →
  (∀ k, k ∈ sorted s ++ unsorted s ↔ is_Some (points s !! k)) ∧
  NoDup (sorted s ++ unsorted s) ∧
  Sorted Z.lt (sorted s) ∧
  NoDup (sorted s) ∧
  ∀ o, ∃ s', exec o s = Done s' ∧ reachable range_keys s' ∧ wf s'.
Proof.
  intros Hreach. pose proof (reachable_wf s Hreach) as Hwf.
  split; [apply Hwf|]. split; [apply Hwf|]. split; [apply Hwf|].
  split.
  - destruct Hwf as [_ Hnd _]. by apply NoDup_app in Hnd as [? _].
  - intros o. destruct (exec_wf o s Hwf) as (s' & Hexec & Hwf').
    exists s'. split; [done|]. split; [|done]. by eapply reach_exec.
Qed.

End reachability.

(** ** [Combine] *)

Lemma sort_sort (s : Series) : sort (sort s) = sort s.
Proof. apply sort_idem, sort_unsorted. Qed.

Lemma merged_refl (s : Series) : merged s s.
Proof. by left. Qed.

Lemma merged_trans (s1 s2 s3 : Series) :
  merged s1 s2 → merged s2 s3 → merged s1 s3.
Proof.
  intros [->| ->] [->| ->]; unfold merged; rewrite ?sort_sort; auto.
Qed.

Lemma merged_points (s s' : Series) : merged s s' → points s' = points s.
Proof. intros [->| ->]; [done|apply sort_points]. Qed.

Lemma merged_wf (s s' : Series) : merged s s' → wf s → wf s'.
Proof. intros [->| ->]; [done|apply sort_wf]. Qed.

Lemma merged_sort (s s' : Series) : merged s s' → sort s' = sort s.
Proof. intros [->| ->]; [done|apply sort_sort]. Qed.

Lemma Get_merged (s s' : Series) (x y : Z) :
  Get s x = Done (s', y) → merged s s'.
Proof.
  intros HG. destruct (Get_total s x) as (s1 & y1 & HG1 & Hm).
  rewrite HG in HG1. by injection HG1 as -> ->.
Qed.

(** On a well-formed container the result of [Get] does not depend on
    whether the buffer has been merged. *)
Lemma Get_merged_value (s s' : Series) (x : Z) :
  wf s → merged s s' →
  ∃ y s1 s1', Get s x = Done (s1, y) ∧ Get s' x = Done (s1', y).
Proof.
  intros Hwf Hm.
  destruct (Get_step_value s x Hwf) as (s1 & y & HG & Hv).
  destruct (Get_step_value s' x (merged_wf _ _ Hm Hwf)) as (s1' & y' & HG' & Hv').
  rewrite (merged_points _ _ Hm) in Hv'.
  rewrite (step_value_unique _ _ _ _ Hv' Hv) in HG'. eauto.
Qed.

Lemma heap_merged_refl (h : heap) : heap_merged h h.
Proof. intros p s Hp. exists s. split; [done|apply merged_refl]. Qed.

Lemma heap_merged_insert (h0 h : heap) (p : loc) (t t' : Series) :
  heap_merged h0 h → h !! p = Some t → merged t t' →
  heap_merged h0 (<[p := t']> h).
Proof.
  intros Hm Hp Ht q s Hq. destruct (Hm q s Hq) as (s' & Hq' & Hs').
  destruct (decide (p = q)) as [->|Hne].
  - exists t'. rewrite lookup_insert_eq. split; [done|].
    rewrite Hp in Hq'. injection Hq' as ->. by eapply merged_trans.
  - exists s'. by rewrite lookup_insert_ne.
Qed.

Lemma values_at_spec (h0 h : heap) (ps : list loc) (key : Z) :
  inputs_wf h0 ps → heap_merged h0 h →
  ∃ h' ys, values_at h ps key = Done (h', ys) ∧ heap_merged h0 h' ∧
           Forall2 (value_of h0 key) ps ys.
Proof.
  revert h. induction ps as [|p ps IH]; intros h Hin Hm.
  { exists h, []. split; [done|]. split; [done|constructor]. }
  destruct (Hin p ltac:(left)) as (s0 & Hp0 & Hwf0).
  destruct (Hm p s0 Hp0) as (t0 & Hp & Ht0).
  cbn [values_at]. unfold deref. rewrite Hp. cbn [mbind res_bind].
  destruct (Get_merged_value s0 t0 key Hwf0 Ht0) as (y & s1 & t0' & HG0 & HG).
  rewrite HG. cbn [mbind res_bind].
  destruct (IH (<[p := t0']> h)) as (h' & ys & -> & Hm' & Hys).
  { intros q Hq. apply Hin. by right. }
  { eapply heap_merged_insert; [done..|]. by eapply Get_merged. }
  cbn [mbind res_bind]. exists h', (y :: ys). split; [done|]. split; [done|].
  constructor; [|done]. by exists s0, s1.
Qed.

Lemma combine_keys_spec (f : list Z → Z) (h0 h : heap) (ptrs : list loc)
    (keys : list Z) (pts : gmap Z Z) (uns : list Z) :
  inputs_wf h0 ptrs → heap_merged h0 h → partial f h0 ptrs pts uns →
  (∀ x, x ∈ keys → input_key h0 ptrs x) →
  ∃ h' pts' uns',
    combine_keys f h ptrs keys pts uns = Done (h', pts', uns') ∧
    heap_merged h0 h' ∧ partial f h0 ptrs pts' uns' ∧
    ∀ x, is_Some (pts !! x) ∨ x ∈ keys → is_Some (pts' !! x).
Proof.
  intros Hin. revert h pts uns.
  induction keys as [|key keys IH]; intros h pts uns Hm Hpart Hkeys.
  { exists h, pts, uns. split; [done|]. split; [done|]. split; [done|].
    intros x [?|Hx]; [done|]. by apply elem_of_nil in Hx. }
  cbn [combine_keys]. destruct (pts !! key) as [v|] eqn:Hkey.
  - destruct (IH h pts uns Hm Hpart) as (h' & pts' & uns' & -> & Hm' & Hp' & Hc).
    { intros x Hx. apply Hkeys. by right. }
    exists h', pts', uns'. split; [done|]. split; [done|]. split; [done|].
    intros x [Hx|[->|Hx]%elem_of_cons]; apply Hc; auto.
  - destruct (values_at_spec h0 h ptrs key Hin Hm) as (h1 & vs & -> & Hm1 & Hvs).
    cbn [mbind res_bind].
    destruct (IH h1 (<[key := f vs]> pts) (uns ++ [key]) Hm1)
      as (h' & pts' & uns' & -> & Hm' & Hp' & Hc).
    { destruct Hpart as [Hwf Hvals]. split.
      - pose proof (Set_wf _ key (f vs) Hwf) as Hwf'.
        unfold Set_ in Hwf'. simpl in Hwf'. by rewrite Hkey in Hwf'.
      - intros x v. rewrite lookup_insert. case_decide as Hx.
        + subst x. intros [= <-]. split; [apply Hkeys; by left|]. eauto.
        + apply Hvals. }
    { intros x Hx. apply Hkeys. by right. }
    exists h', pts', uns'. split; [done|]. split; [done|]. split; [done|].
    intros x Hx. apply Hc. rewrite lookup_insert.
    destruct (decide (key = x)) as [->|Hne]; [left; by eexists|].
    destruct Hx as [?|[->|?]%elem_of_cons]; auto. done.
Qed.

Section combine.

Variable range_keys : gmap Z Z → list Z.
Hypothesis range_keys_perm : ∀ m, range_keys m ≡ₚ (map_to_list m).*1.

Lemma combine_list_spec (f : list Z → Z) (h0 h : heap)
    (ptrs rest : list loc) (pts : gmap Z Z) (uns : list Z) :
  inputs_wf h0 ptrs → heap_merged h0 h → partial f h0 ptrs pts uns →
  (∀ p, p ∈ rest → p ∈ ptrs) →
  ∃ h' pts' uns',
    combine_list range_keys f h ptrs rest pts uns = Done (h', pts', uns') ∧
    heap_merged h0 h' ∧ partial f h0 ptrs pts' uns' ∧
    ∀ x, is_Some (pts !! x) ∨ input_key h0 rest x → is_Some (pts' !! x).
Proof.
  intros Hin. revert h pts uns.
  induction rest as [|p rest IH]; intros h pts uns Hm Hpart Hrest.
  { exists h, pts, uns. split; [done|]. split; [done|]. split; [done|].
    intros x [?|(p & s & Hp & _)]; [done|]. by apply elem_of_nil in Hp. }
  destruct (Hin p (Hrest p ltac:(left))) as (s0 & Hp0 & Hwf0).
  destruct (Hm p s0 Hp0) as (t & Hp & Ht).
  cbn [combine_list]. unfold deref. rewrite Hp. cbn [mbind res_bind].
  rewrite (merged_points _ _ Ht).
  destruct (combine_keys_spec f h0 h ptrs (range_keys (points s0)) pts uns
              Hin Hm Hpart) as (h1 & pts1 & uns1 & -> & Hm1 & Hpart1 & Hc1).
  { intros x Hx. exists p, s0. split; [apply Hrest; by left|].
    split; [done|]. by apply (range_keys_elem range_keys range_keys_perm). }
  cbn [mbind res_bind].
  destruct (IH h1 pts1 uns1 Hm1 Hpart1)
    as (h' & pts' & uns' & -> & Hm' & Hpart' & Hc').
  { intros q Hq. apply Hrest. by right. }
  exists h', pts', uns'. split; [done|]. split; [done|]. split; [done|].
  intros x [Hx|(q & s & Hq & Hqs & Hx)]; apply Hc'.
  - left. apply Hc1. by left.
  - apply elem_of_cons in Hq as [->|Hq].
    + left. apply Hc1. right. rewrite Hp0 in Hqs. injection Hqs as ->.
      by apply (range_keys_elem range_keys range_keys_perm).
    + right. by exists q, s.
Qed.

Lemma Combine_spec (f : list Z → Z) (h : heap) (ptrs : list loc) :
  inputs_wf h ptrs →
  ∃ h' c, Combine range_keys f h ptrs = Done (h', c) ∧
    heap_merged h h' ∧ wf c ∧
    (∀ x, stored c x ↔ input_key h ptrs x) ∧
    (∀ x v, points c !! x = Some v →
       ∃ vs, Forall2 (value_of h x) ptrs vs ∧ v = f vs).
Proof.
  intros Hin. unfold Combine.
  destruct (combine_list_spec f h h ptrs ptrs ∅ [] Hin (heap_merged_refl h))
    as (h' & pts & uns & -> & Hm & [Hwf Hvals] & Hc); [|done|].
  { split; [by apply wfb_wf|]. intros x v. by rewrite lookup_empty. }
  cbn [mbind res_bind]. exists h', (mkSeries pts [] uns).
  split; [done|]. split; [done|]. split; [done|]. split.
  - intros x. split.
    + intros [v Hv]. by apply (Hvals x v).
    + intros Hx. apply Hc. by right.
  - intros x v Hv. by apply (Hvals x v).
Qed.

(** C2. Contract of [Combine]: for every reducer [f] and every list of
    pointers to well-formed containers, [Combine] returns a well-formed
    container whose stored keys are exactly the keys stored in one of the
    inputs, and whose value at each such key [x] is [f] applied to the
    results of [Get(x)] on the inputs, in the order of the argument list;
    with no input the result has no stored point. *)
Theorem Combine_contract (f : list Z → Z) (h : heap) (ptrs : list loc) :
  inputs_wf h ptrs →
  ∃ h' c, Combine range_keys f h ptrs = Done (h', c) ∧ wf c ∧
    (∀ x, stored c x ↔ ∃ p s, p ∈ ptrs ∧ h !! p = Some s ∧ stored s x) ∧
    (∀ x, stored c x →
       ∃ vs, Forall2 (λ p v, ∃ s s', h !! p = Some s ∧ Get s x = Done (s', v))
               ptrs vs ∧
             points c !! x = Some (f vs)) ∧
    (ptrs = [] → points c = ∅).
Proof.
  intros Hin.
  destruct (Combine_spec f h ptrs Hin) as (h' & c & HC & _ & Hwf & Hkeys & Hvals).
  exists h', c. split; [done|]. split; [done|]. split; [done|]. split.
  - intros x [v Hv]. destruct (Hvals x v Hv) as (vs & Hvs & ->). eauto.
  - intros ->. apply map_empty. intros x. apply eq_None_not_Some.
    intros Hx. apply Hkeys in Hx as (p & _ & Hp & _).
    by apply elem_of_nil in Hp.
Qed.

(** C10. Frame of [Combine]: every container of the store holds after
    the call the map it held before, so [Size] and [Has] are unchanged;
    [Xs] returns the same keys; and, for a well-formed container, [Get]
    returns the same value at every [x]. Only the buffer of an input may
    have been merged. *)
Theorem Combine_frame (f : list Z → Z) (h : heap) (ptrs : list loc) :
  inputs_wf h ptrs →
  ∃ h' c, Combine range_keys f h ptrs = Done (h', c) ∧
    ∀ p s, h !! p = Some s →
      ∃ s', h' !! p = Some s' ∧
        points s' = points s ∧
        (s' = s ∨ s' = sort s) ∧
        Size s' = Size s ∧
        (∀ x, Has s' x = Has s x) ∧
        (Xs s').2 = (Xs s).2 ∧
        (wf s → ∀ x, ∃ y s1 s1',
           Get s x = Done (s1, y) ∧ Get s' x = Done (s1', y)).
Proof.
  intros Hin.
  destruct (Combine_spec f h ptrs Hin) as (h' & c & HC & Hm & _).
  exists h', c. split; [done|]. intros p s Hp.
  destruct (Hm p s Hp) as (s' & Hp' & Hs'). exists s'.
  pose proof (merged_points _ _ Hs') as Hpts.
  split; [done|]. split; [done|]. split; [done|].
  split; [by unfold Size; rewrite Hpts|].
  split; [by intros x; unfold Has; rewrite Hpts|].
  split; [by unfold Xs; simpl; rewrite (merged_sort _ _ Hs')|].
  intros Hwf x. by apply Get_merged_value.
Qed.

End combine.

Lemma floor_key_list (l : list Z) (x : Z) :
  match foldr (λ k acc,
           if decide (k ≤ x) then
             match acc with
             | Some k' => Some (Z.max k k')
             | None => Some k
             end
           else acc) None l with
  | Some k => k ∈ l ∧ k ≤ x ∧ ∀ k', k' ∈ l → k' ≤ x → k' ≤ k
  | None => ∀ k', k' ∈ l → x < k'
  end.
Proof.
  induction l as [|a l IH]; simpl.
  { intros k' Hk'. by apply elem_of_nil in Hk'. }
  destruct (foldr _ None l) as [k|]; case_decide as Ha.
  - destruct IH as (Hk & Hkx & Hmax). split; [|split; [lia|]].
    + destruct (Z.max_spec a k) as [[_ ->]|[_ ->]]; [by right|by left].
    + intros k' [->|Hk']%elem_of_cons Hk'x; [lia|].
      specialize (Hmax k' Hk' Hk'x). lia.
  - destruct IH as (Hk & Hkx & Hmax). split; [by right|]. split; [done|].
    intros k' [->|Hk']%elem_of_cons Hk'x; [lia|]. by apply Hmax.
  - split; [by left|]. split; [done|].
    intros k' [->|Hk']%elem_of_cons Hk'x; [lia|]. specialize (IH k' Hk'). lia.
  - intros k' [->|Hk']%elem_of_cons; [lia|]. by apply IH.
Qed.

Lemma floor_value_step (m : gmap Z Z) (x : Z) :
  step_value m x (floor_value m x).
Proof.
  unfold floor_value, floor_key.
  pose proof (floor_key_list (map_to_list m).*1 x) as H.
  destruct (foldr _ None _) as [k|].
  - destruct H as (Hk & Hkx & Hmax). apply keys_elem in Hk.
    left. exists k. split.
    + split; [done|]. split; [done|]. intros k' Hk'. apply Hmax.
      by apply keys_elem.
    + destruct Hk as [v Hv]. unfold mapget. by rewrite Hv.
  - right. split; [|done]. intros k Hk. apply H. by apply keys_elem.
Qed.

Lemma Get_floor_value (s s' : Series) (x y : Z) :
  wf s → Get s x = Done (s', y) → y = floor_value (points s) x.
Proof.
  intros Hwf HG. eapply step_value_unique; [|apply floor_value_step].
  by eapply Get_step_value_inv.
Qed.

Lemma inputs_hold_wf (h : heap) (ptrs : list loc) (ms : list (gmap Z Z)) :
  inputs_hold h ptrs ms → inputs_wf h ptrs.
Proof.
  induction 1 as [|p m ptrs ms (s & Hp & Hwf & _) _ IH].
  { intros p Hp. by apply elem_of_nil in Hp. }
  intros q [->|Hq]%elem_of_cons; [by eauto|by apply IH].
Qed.

Lemma inputs_hold_values (h : heap) (ptrs : list loc) (ms : list (gmap Z Z))
    (x : Z) (vs : list Z) :
  inputs_hold h ptrs ms → Forall2 (value_of h x) ptrs vs →
  vs = (λ m, floor_value m x) <$> ms.
Proof.
  intros Hh. revert vs.
  induction Hh as [|p m ptrs ms (s & Hp & Hwf & Hm) _ IH]; intros vs Hvs.
  { by apply Forall2_nil_inv_l in Hvs as ->. }
  apply Forall2_cons_inv_l in Hvs as (v & vs' & (s1 & s1' & Hp1 & HG) & Hvs' & ->).
  rewrite Hp in Hp1. injection Hp1 as <-.
  rewrite fmap_cons. f_equal; [|by apply IH].
  rewrite <-Hm. by eapply Get_floor_value.
Qed.

Lemma inputs_hold_keys (h : heap) (ptrs : list loc) (ms : list (gmap Z Z))
    (x : Z) :
  inputs_hold h ptrs ms →
  input_key h ptrs x ↔ x ∈ (⋃ (dom <$> ms) : gset Z).
Proof.
  induction 1 as [|p m ptrs ms (s & Hp & Hwf & Hm) _ IH].
  { split; [intros (p & s & Hp & _); by apply elem_of_nil in Hp|].
    simpl. by intros ?%elem_of_empty. }
  rewrite fmap_cons. simpl. rewrite elem_of_union, <-IH, elem_of_dom.
  split.
  - intros (q & t & [->|Hq]%elem_of_cons & Hqt & Hx).
    + left. rewrite Hp in Hqt. injection Hqt as <-. by rewrite <-Hm.
    + right. by exists q, t.
  - intros [Hx|(q & t & Hq & Hqt & Hx)].
    + exists p, s. split; [by left|]. split; [done|]. unfold stored.
      by rewrite Hm.
    + exists q, t. split; [by right|done].
Qed.

Section combine_map.

Variable range_keys : gmap Z Z → list Z.
Hypothesis range_keys_perm : ∀ m, range_keys m ≡ₚ (map_to_list m).*1.

(** [Combine] on well-formed containers holding [ms] returns a
    well-formed container holding [combine_map f ms]. *)
Lemma Combine_points (f : list Z → Z) (h : heap) (ptrs : list loc)
    (ms : list (gmap Z Z)) :
  inputs_hold h ptrs ms →
  ∃ h' c, Combine range_keys f h ptrs = Done (h', c) ∧ wf c ∧
          points c = combine_map f ms.
Proof.
  intros Hh.
  destruct (Combine_spec range_keys range_keys_perm f h ptrs
              (inputs_hold_wf _ _ _ Hh))
    as (h' & c & HC & _ & Hwf & Hkeys & Hvals).
  exists h', c. split; [done|]. split; [done|].
  assert (∀ x v, combine_map f ms !! x = Some v ↔
            x ∈ (⋃ (dom <$> ms) : gset Z) ∧
            v = f ((λ m, floor_value m x) <$> ms)) as Hcm.
  { intros x v. unfold combine_map. rewrite lookup_set_to_map.
    - split; [by intros (y & Hy & [= -> ->])|].
      intros [Hx ->]. by exists x.
    - by intros y y' _ _ [=]. }
  apply map_eq. intros x. destruct (points c !! x) as [v|] eqn:Hx.
  - symmetry. apply Hcm. split.
    + apply (inputs_hold_keys h ptrs ms x Hh), Hkeys. by eexists.
    + destruct (Hvals x v Hx) as (vs & Hvs & ->). f_equal.
      by eapply inputs_hold_values.
  - symmetry. apply eq_None_not_Some. intros [v Hv].
    apply Hcm in Hv as [Hin _].
    apply (inputs_hold_keys h ptrs ms x Hh), Hkeys in Hin.
    destruct Hin as [? ?]. congruence.
Qed.

End combine_map.

Lemma range_map_to_list_perm (m : gmap Z Z) :
  range_map_to_list m ≡ₚ (map_to_list m).*1.
Proof. reflexivity. Defined.

Lemma combine_map_any : combine_map Any [vals1; vals2] = combined_any.
Proof. by vm_compute. Qed.

Lemma compact_combined_any : compact_map combined_any = expected_any.
Proof. by vm_compute. Qed.

(** C8, as stated, fails: on the test's inputs the container returned by
    [Combine(Any, S1, S2)] does not hold {-10:1, 50:0, 123:1}; it also
    holds points at -5 and 0. *)
Lemma Combine_Any_not_compacted :
  ¬ ∃ h' c, Combine range_map_to_list Any test_heap [1%nat; 2%nat] = Done (h', c)
            ∧ points c = expected_any.
Proof.
  intros (h' & c & HC & Hpts).
  assert (∃ r, Combine range_map_to_list Any test_heap [1%nat; 2%nat] = r ∧
               match r with
               | Done (_, c0) => points c0 !! (-5) = Some 1
               | _ => False
               end) as (r & Hr & Hm).
  { eexists. split; [reflexivity|]. by vm_compute. }
  rewrite HC in Hr. subst r. simpl in Hm. rewrite Hpts in Hm.
  vm_compute in Hm. discriminate.
Qed.

Section any_scenario.

Variable range_keys : gmap Z Z → list Z.
Hypothesis range_keys_perm : ∀ m, range_keys m ≡ₚ (map_to_list m).*1.

(** C8, amended. [Combine(Any, S1, S2)], for well-formed [S1] holding
    {-5:3, 0:0, 123:1} and [S2] holding {-10:1, 0:2, 50:0}, returns a
    container holding {-10:1, -5:1, 0:1, 50:0, 123:1}; after [Compact]
    this container holds exactly {-10:1, 50:0, 123:1}. *)
Theorem Combine_Any_scenario (h : heap) (p1 p2 : loc) (s1 s2 : Series) :
  h !! p1 = Some s1 → h !! p2 = Some s2 → wf s1 → wf s2 →
  points s1 = vals1 → points s2 = vals2 →
  ∃ h' c c', Combine range_keys Any h [p1; p2] = Done (h', c) ∧
    points c = combined_any ∧
    Compact c = Done c' ∧
    points c' = expected_any.
Proof.
  intros Hp1 Hp2 Hwf1 Hwf2 Hv1 Hv2.
  destruct (Combine_points range_keys range_keys_perm Any h [p1; p2]
              [vals1; vals2]) as (h' & c & HC & Hwf & Hpts).
  { repeat constructor; eauto. }
  destruct (Compact_spec c Hwf) as (c' & HCc & _).
  exists h', c, c'. split; [done|].
  rewrite combine_map_any in Hpts. split; [done|]. split; [done|].
  rewrite (Compact_points c c' Hwf HCc), Hpts.
  apply compact_combined_any.
Qed.

End any_scenario.

Lemma case2_series_wf : wf case2_series.
Proof. apply wfb_wf. by vm_compute. Qed.

Lemma caser_series_wf : wf caser_series.
Proof. apply wfb_wf. by vm_compute. Qed.

Lemma test_heap_wf : inputs_wf test_heap [1%nat; 2%nat].
Proof.
  intros p [->|[->|Hp]%elem_of_cons]%elem_of_cons.
  - eexists. split; [reflexivity|]. apply wfb_wf. by vm_compute.
  - eexists. split; [reflexivity|]. apply wfb_wf. by vm_compute.
  - by apply elem_of_nil in Hp.
Qed.

Lemma Get_floor_correct_witness :
  wf case2_series ∧
  ∃ s' y, Get case2_series 31 = Done (s', y) ∧
    (∀ v, points case2_series !! 31 = Some v → y = v) ∧
    (∀ k v, is_floor (points case2_series) 31 k →
            points case2_series !! k = Some v → y = v) ∧
    ((∀ k, stored case2_series k → 31 < k) → y = 0) ∧
    (points case2_series = ∅ → y = 0) ∧
    ((∃ k, is_floor (points case2_series) 31 k) ∨
     (∀ k, stored case2_series k → 31 < k)).
Proof.
  split; [apply case2_series_wf|].
  apply (Get_floor_correct case2_series 31), case2_series_wf.
Defined.

Lemma Compact_preserves_Get_witness :
  wf caser_series ∧
  ∃ s1 y sc s2,
    Get caser_series 21 = Done (s1, y) ∧ Compact caser_series = Done sc ∧
    Get sc 21 = Done (s2, y).
Proof.
  split; [apply caser_series_wf|].
  apply (Compact_preserves_Get caser_series 21), caser_series_wf.
Defined.

Lemma Compact_postcondition_witness :
  wf caser_series ∧
  ∃ s', Compact caser_series = Done s' ∧
    (∀ k v, points s' !! k = Some v → points caser_series !! k = Some v) ∧
    (∀ k, stored caser_series k →
       points s' !! k = None ↔
         ∃ p, pred_key (points s') k p ∧
              points caser_series !! p = points caser_series !! k) ∧
    (∀ k, stored caser_series k →
       points s' !! k = None ↔
         ∃ p, pred_key (points caser_series) k p ∧
              points caser_series !! p = points caser_series !! k) ∧
    (∀ k, stored caser_series k → (∀ k', stored caser_series k' → k ≤ k') →
       points s' !! k = points caser_series !! k) ∧
    (points caser_series = caser → points s' = caserc).
Proof.
  split; [apply caser_series_wf|].
  apply (Compact_postcondition caser_series), caser_series_wf.
Defined.

Lemma Compact_idempotent_witness :
  wf caser_series ∧
  ∃ s1 s2, Compact caser_series = Done s1 ∧ Compact s1 = Done s2 ∧
           s2 = s1 ∧ points s2 = points s1.
Proof.
  split; [apply caser_series_wf|].
  apply (Compact_idempotent caser_series), caser_series_wf.
Defined.

Lemma Floor_Ceiling_exact_witness :
  wf case2_series ∧ stored case2_series 32 ∧
  (∃ s', Floor case2_series 32 = Done (s', (32, true))) ∧
  Ceiling case2_series 32 = Done (case2_series, (32, true)).
Proof.
  split; [apply case2_series_wf|].
  assert (stored case2_series 32) as Hx by (by exists (-7)).
  split; [done|].
  apply (Floor_Ceiling_exact case2_series 32); [apply case2_series_wf|done].
Defined.

Lemma Remove_exact_witness :
  wf caser_series ∧
  (¬ stored caser_series 4 → Remove caser_series 4 = Done caser_series) ∧
  (stored caser_series 4 →
     ∃ s', Remove caser_series 4 = Done s' ∧ wf s' ∧
       points s' !! 4 = None ∧
       Size s' = Size caser_series - 1 ∧
       ∀ k, k ≠ 4 → points s' !! k = points caser_series !! k).
Proof.
  split; [apply caser_series_wf|].
  apply (Remove_exact caser_series 4), caser_series_wf.
Defined.

Lemma caser_worked_reachable : reachable range_map_to_list caser_worked.
Proof.
  apply (reach_exec _ (mkSeries (<[7 := 8]> (delete 4 caser))
                         [0; 2; 5; 7; 10; 20; 22; 30] []) OpCompact);
    [|by vm_compute].
  apply (reach_exec _ (mkSeries (<[7 := 8]> caser)
                         [0; 2; 4; 5; 7; 10; 20; 22; 30] []) (OpRemove 4));
    [|by vm_compute].
  apply (reach_exec _ (Set_ caser_series 7 8) (OpGet 3)); [|by vm_compute].
  apply (reach_exec _ caser_series (OpSet 7 8)); [|done].
  apply reach_NewSeriesData.
Defined.

Lemma invariant_preserved_witness :
  (∀ m, range_map_to_list m ≡ₚ (map_to_list m).*1) ∧
  reachable range_map_to_list caser_worked ∧
  (∀ k, k ∈ sorted caser_worked ++ unsorted caser_worked
        ↔ is_Some (points caser_worked !! k)) ∧
  NoDup (sorted caser_worked ++ unsorted caser_worked) ∧
  Sorted Z.lt (sorted caser_worked) ∧
  NoDup (sorted caser_worked) ∧
  ∀ o, ∃ s', exec o caser_worked = Done s' ∧
             reachable range_map_to_list s' ∧ wf s'.
Proof.
  split; [apply range_map_to_list_perm|].
  split; [apply caser_worked_reachable|].
  apply (invariant_preserved range_map_to_list range_map_to_list_perm
           caser_worked caser_worked_reachable).
Defined.

Lemma Combine_contract_witness :
  (∀ m, range_map_to_list m ≡ₚ (map_to_list m).*1) ∧
  inputs_wf test_heap [1%nat; 2%nat] ∧
  ∃ h' c, Combine range_map_to_list Diff test_heap [1%nat; 2%nat] = Done (h', c) ∧
    wf c ∧
    (∀ x, stored c x ↔
          ∃ p s, p ∈ [1%nat; 2%nat] ∧ test_heap !! p = Some s ∧ stored s x) ∧
    (∀ x, stored c x →
       ∃ vs, Forall2 (λ p v, ∃ s s', test_heap !! p = Some s ∧
                                     Get s x = Done (s', v))
               [1%nat; 2%nat] vs ∧
             points c !! x = Some (Diff vs)) ∧
    ([1%nat; 2%nat] = [] → points c = ∅).
Proof.
  split; [apply range_map_to_list_perm|]. split; [apply test_heap_wf|].
  apply (Combine_contract range_map_to_list range_map_to_list_perm Diff
           test_heap [1%nat; 2%nat] test_heap_wf).
Defined.

Lemma Combine_frame_witness :
  (∀ m, range_map_to_list m ≡ₚ (map_to_list m).*1) ∧
  inputs_wf test_heap [1%nat; 2%nat] ∧
  ∃ h' c, Combine range_map_to_list Sum test_heap [1%nat; 2%nat] = Done (h', c) ∧
    ∀ p s, test_heap !! p = Some s →
      ∃ s', h' !! p = Some s' ∧
        points s' = points s ∧
        (s' = s ∨ s' = sort s) ∧
        Size s' = Size s ∧
        (∀ x, Has s' x = Has s x) ∧
        (Xs s').2 = (Xs s).2 ∧
        (wf s → ∀ x, ∃ y s1 s1',
           Get s x = Done (s1, y) ∧ Get s' x = Done (s1', y)).
Proof.
  split; [apply range_map_to_list_perm|]. split; [apply test_heap_wf|].
  apply (Combine_frame range_map_to_list range_map_to_list_perm Sum
           test_heap [1%nat; 2%nat] test_heap_wf).
Defined.

Lemma Combine_Any_scenario_witness :
  (∀ m, range_map_to_list m ≡ₚ (map_to_list m).*1) ∧
  ∃ h' c c',
    Combine range_map_to_list Any test_heap [1%nat; 2%nat] = Done (h', c) ∧
    points c = combined_any ∧
    Compact c = Done c' ∧
    points c' = expected_any.
Proof.
  split; [apply range_map_to_list_perm|].
  apply (Combine_Any_scenario range_map_to_list range_map_to_list_perm
           test_heap 1%nat 2%nat
           (NewSeriesData range_map_to_list vals1)
           (NewSeriesData range_map_to_list vals2)).
  - reflexivity.
  - reflexivity.
  - apply wfb_wf. by vm_compute.
  - apply wfb_wf. by vm_compute.
  - by vm_compute.
  - by vm_compute.
Defined.


(** ** The tests of the package, evaluated *)

(** [Get] on the series of [case2], at the queries of the test. *)
Example Get_case2 :
  (λ x, '(_, y) ← Get case2_series x; Done y) <$> [-6; -5; 0; 31; 32; 33]
  = Done <$> [0; 20; 20; 20; -7; -7].
Proof. by vm_compute. Qed.

(** [Compact] on the series of [caser]. *)
Example Compact_caser :
  (s ← Compact caser_series; Done (points s, sorted s, unsorted s))
  = Done (caserc, [0; 2; 5; 10; 30], []).
Proof. by vm_compute. Qed.

(** [Combine] with [Sum], [Diff] and [All] on the inputs of the
    combination test, compacted as the test does. *)
Example Combine_Sum_test :
  ('(_, c) ← Combine range_map_to_list Sum test_heap [1%nat; 2%nat];
   c' ← Compact c; Done (points c'))
  = Done (list_to_map [(-10, 1); (-5, 4); (0, 2); (50, 0); (123, 1)]).
Proof. by vm_compute. Qed.

Example Combine_Diff_test :
  ('(_, c) ← Combine range_map_to_list Diff test_heap [1%nat; 2%nat];
   c' ← Compact c; Done (points c'))
  = Done (list_to_map [(-10, -1); (-5, 2); (0, -2); (50, 0); (123, 1)]).
Proof. by vm_compute. Qed.

Example Combine_All_test :
  ('(_, c) ← Combine range_map_to_list All test_heap [1%nat; 2%nat];
   c' ← Compact c; Done (points c'))
  = Done (list_to_map [(-10, 0); (-5, 1); (0, 0)]).
Proof. by vm_compute. Qed.

(** [Combine] of no container, and the reducers on no value. *)
Example Combine_empty :
  ('(_, c) ← Combine range_map_to_list All test_heap []; Done c)
  = Done (mkSeries ∅ [] []).
Proof. by vm_compute. Qed.

Example reducers_empty : (Sum [], Diff [], Any [], All []) = (0, 0, 0, 1).
Proof. done. Qed.

(** * Further properties of the code *)

(** ** [find] *)

(** X1. On every state, sorted or not, [find] returns: the search never
    leaves the slice and ends within its length. The result is an index of
    [sorted] or -1, and it is -1 exactly when [sorted] is empty or [x] is
    below its first element. *)
Theorem find_in_bounds (s : Series) (x : Z) :
  ∃ i, find s x = Done i ∧
       -1 ≤ i < Z.of_nat (length (sorted s)) ∧
       (i = -1 ↔ sorted s = [] ∨ ∃ k0, head (sorted s) = Some k0 ∧ x < k0).
Proof.
  unfold find. destruct (sorted s) as [|k0 l] eqn:Hs.
  { exists (-1). simpl. split; [done|]. split; [lia|]. split; [by left|done]. }
  case_decide as Hx.
  { exists (-1). split; [done|]. split; [simpl; lia|].
    split; [|done]. intros _. right. by exists k0. }
  destruct (find_loop_spec (length (k0 :: l)) (k0 :: l) x 0
              (Z.of_nat (length (k0 :: l)))) as (r & Hr & Hrange & _);
    [simpl; lia..|].
  exists r. split; [done|]. split; [lia|]. split; [lia|].
  intros [?|(k & [= <-] & Hk)]; [done|lia].
Qed.

(** X2. On a strictly increasing [sorted], [find] returns the index that
    separates the elements at most [x] from the others: the element at
    index [j] is at most [x] exactly when [j] is at most the result. *)
Theorem find_separates (s : Series) (x : Z) :
  Sorted Z.lt (sorted s) →
  ∃ i, find s x = Done i ∧
       ∀ j k, sorted s !! j = Some k → (k ≤ x ↔ Z.of_nat j ≤ i).
Proof.
  intros Hs. apply (Sorted_StronglySorted _) in Hs.
  destruct (find_sorted s x Hs)
    as (r & Hr & [[-> Hnone]|(Hr0 & kr & Hkr & Hkx & Hmax)]).
  - exists (-1). split; [done|]. intros j k Hj.
    apply list_elem_of_lookup_2 in Hj. specialize (Hnone k Hj). lia.
  - exists r. split; [done|]. intros j k Hj. split.
    + intros Hk. specialize (Hmax k (list_elem_of_lookup_2 _ _ _ Hj) Hk).
      destruct (decide (Z.of_nat j ≤ r)) as [|Hgt]; [done|].
      pose proof (StronglySorted_lt_lookup _ (Z.to_nat r) j kr k Hs Hkr Hj).
      lia.
    + intros Hjr. destruct (decide (j = Z.to_nat r)) as [->|Hne].
      * rewrite Hkr in Hj. injection Hj as ->. done.
      * pose proof (StronglySorted_lt_lookup _ j (Z.to_nat r) k kr Hs Hj Hkr).
        lia.
Qed.

Lemma find_separates_witness :
  Sorted Z.lt (sorted caser_worked) ∧
  ∃ i, find caser_worked 6 = Done i ∧
       ∀ j k, sorted caser_worked !! j = Some k → (k ≤ 6 ↔ Z.of_nat j ≤ i).
Proof.
  assert (Sorted Z.lt (sorted caser_worked)) as Hs.
  { apply (bool_decide_unpack _). by vm_compute. }
  split; [done|]. apply (find_separates caser_worked 6 Hs).
Defined.

(** ** [Set] and [Get] *)



Lemma Get_again (s s' : Series) (x y : Z) :
  Get s x = Done (s', y) → Get s' x = Done (s', y).
Proof.
  intros HG. destruct (Get_total s x) as (s1 & y1 & HG1 & Hs1).
  rewrite HG in HG1. injection HG1 as <- <-.
  destruct Hs1 as [->| ->]; [done|].
  unfold Get in HG |- *. rewrite sort_points.
  destruct (points s !! x) as [v|].
  - by injection HG as _ ->.
  - by rewrite sort_sort.
Qed.

(** X5. [Get] returns on every state, well formed or not, and the merge
    that it may do is done once: on the state that it leaves, the same
    [Get] returns the same value and changes nothing. The stored points
    are never changed. *)
Theorem Get_settles (s : Series) (x : Z) :
  ∃ s' y, Get s x = Done (s', y) ∧ Get s' x = Done (s', y) ∧
          points s' = points s.
Proof.
  destruct (Get_total s x) as (s' & y & HG & _).
  exists s', y. split; [done|]. split; [by eapply Get_again|].
  by eapply Get_points.
Qed.

(** ** The merged form of a container *)

(** After the merge a well-formed container is determined by its map. *)
Lemma sort_merged_form (s : Series) :
  wf s → sort s = mkSeries (points s) (keys_sorted (points s)) [].
Proof.
  intros Hwf. rewrite (sort_eta s) at 1. by rewrite sort_canonical.
Qed.

Lemma keys_sorted_elem (m : gmap Z Z) (k : Z) :
  k ∈ keys_sorted m ↔ is_Some (m !! k).
Proof. unfold keys_sorted. by rewrite sort_slice_perm, keys_elem. Qed.

Lemma keys_sorted_sorted (m : gmap Z Z) : StronglySorted Z.lt (keys_sorted m).
Proof. apply sort_slice_sorted, NoDup_fst_map_to_list. Qed.

Lemma keys_sorted_length (m : gmap Z Z) : length (keys_sorted m) = size m.
Proof.
  unfold keys_sorted. rewrite sort_slice_perm, length_fmap.
  apply length_map_to_list.
Qed.

(** X6. The buffer is invisible: two well-formed containers that hold the
    same points return the same results from [Get], [Floor], [Ceiling],
    [Xs] and [X0], however their keys are split between [sorted] and
    [unsorted]. *)
Theorem representation_independent (s1 s2 : Series) (x : Z) :
  wf s1 → wf s2 → points s1 = points s2 →
  (∃ y a b, Get s1 x = Done (a, y) ∧ Get s2 x = Done (b, y)) ∧
  (∃ r a b, Floor s1 x = Done (a, r) ∧ Floor s2 x = Done (b, r)) ∧
  (∃ r a b, Ceiling s1 x = Done (a, r) ∧ Ceiling s2 x = Done (b, r)) ∧
  (Xs s1).2 = (Xs s2).2 ∧
  (X0 s1).2 = (X0 s2).2.
Proof.
  intros Hwf1 Hwf2 Hpts.
  assert (sort s1 = sort s2) as Hsort.
  { by rewrite !sort_merged_form, Hpts. }
  split; [|split; [|split; [|split]]].
  - destruct (Get_total s1 x) as (a & y & HG & _).
    exists y, a. unfold Get in *. rewrite <-Hpts, <-Hsort.
    destruct (points s1 !! x) as [v|]; [injection HG as <- <-; by eauto|].
    destruct (find (sort s1) x) as [i| |]; [|done..].
    cbn [mbind res_bind] in *. case_decide; [injection HG as <- <-; by eauto|].
    destruct (index (sorted (sort s1)) i) as [k| |]; [|done..].
    cbn [mbind res_bind] in *. injection HG as <- <-. by eauto.
  - destruct (Floor_total s1 x) as (a & r & HF & _).
    exists r, a. unfold Floor, Size in *. rewrite <-Hpts, <-Hsort.
    case_decide; [injection HF as <- <-; by eauto|].
    destruct (find (sort s1) x) as [i| |]; [|done..].
    cbn [mbind res_bind] in *. case_decide; [injection HF as <- <-; by eauto|].
    destruct (index (sorted (sort s1)) i) as [k| |]; [|done..].
    cbn [mbind res_bind] in *. injection HF as <- <-. by eauto.
  - destruct (Ceiling_total s1 x) as (a & r & HF & _).
    exists r, a. unfold Ceiling, Size in *. rewrite <-Hpts, <-Hsort.
    case_decide; [injection HF as <- <-; by eauto|].
    destruct (points s1 !! x) as [v|]; [injection HF as <- <-; by eauto|].
    destruct (find (sort s1) x) as [i| |]; [|done..].
    cbn [mbind res_bind] in *. case_decide; [injection HF as <- <-; by eauto|].
    destruct (index (sorted (sort s1)) (i + 1)) as [k| |]; [|done..].
    cbn [mbind res_bind] in *. injection HF as <- <-. by eauto.
  - unfold Xs. simpl. by rewrite Hsort.
  - unfold X0. rewrite Hsort. by destruct (sorted (sort s2)).
Qed.

(** ** [Floor], [Ceiling], [Xs] and [X0] *)

Lemma StronglySorted_lt_lookup_le (l : list Z) (p q : nat) (a b : Z) :
  StronglySorted Z.lt l → l !! p = Some a → l !! q = Some b →
  (p ≤ q)%nat → a ≤ b.
Proof.
  intros Hl Hp Hq Hpq. destruct (decide (p = q)) as [->|Hne].
  - rewrite Hp in Hq. injection Hq as ->. lia.
  - pose proof (StronglySorted_lt_lookup l p q a b Hl Hp Hq). lia.
Qed.

(** X7. On a well-formed container [Floor(x)] returns the greatest stored
    key that is at most [x] with [true], or [(0, false)] when every stored
    key is above [x] (so also on an empty container); the value that [Get]
    returns at [x] is the value stored at that key, and 0 when there is
    none. The stored points are unchanged. *)
Theorem Floor_spec (s : Series) (x : Z) :
  wf s →
  ∃ s' r, Floor s x = Done (s', r) ∧ wf s' ∧ points s' = points s ∧
    ((r = (0, false) ∧ ∀ k, stored s k → x < k) ∨
     (∃ k, r = (k, true) ∧ is_floor (points s) x k)) ∧
    ∃ s1 y, Get s x = Done (s1, y) ∧
            y = if r.2 then mapget (points s) r.1 else 0.
Proof.
  intros Hwf. destruct (Get_step_value s x Hwf) as (s1 & y & HG & Hv).
  unfold Floor. case_decide as Hsize.
  { assert (∀ k, stored s k → x < k) as Hnone.
    { intros k Hk. by apply stored_Size in Hk. }
    exists s, (0, false). split; [done|]. split; [done|]. split; [done|].
    split; [by left|]. exists s1, y. split; [done|]. simpl.
    eapply step_value_unique; [done|]. by right. }
  pose proof (sort_wf s Hwf) as Hwf'.
  destruct (find_sorted (sort s) x (sort_strongly_sorted s Hwf))
    as (r & -> & [[-> Hnone]|(Hr0 & k & Hk & Hkx & Hmax)]);
    cbn [mbind res_bind].
  - assert (∀ k, stored s k → x < k) as Hnone'.
    { intros k Hk. apply Hnone. by apply sort_sorted_keys. }
    exists (sort s), (0, false). split; [done|]. split; [done|].
    split; [apply sort_points|]. split; [by left|].
    exists s1, y. split; [done|]. simpl.
    eapply step_value_unique; [done|]. by right.
  - rewrite decide_False by lia.
    assert (index (sorted (sort s)) r = Done k) as -> by (by apply index_Done).
    cbn [mbind res_bind].
    assert (is_floor (points s) x k) as Hfloor.
    { split; [|split; [done|]].
      - apply sort_sorted_keys; [done|]. by eapply list_elem_of_lookup_2.
      - intros k' Hk'. apply Hmax. by apply sort_sorted_keys. }
    exists (sort s), (k, true). split; [done|]. split; [done|].
    split; [apply sort_points|]. split; [right; by exists k|].
    exists s1, y. split; [done|]. simpl.
    eapply step_value_unique; [done|]. left. exists k. split; [done|].
    destruct Hfloor as [[v Hv'] _]. unfold mapget. by rewrite Hv'.
Qed.

(** X8. On a well-formed container [Ceiling(x)] returns the least stored
    key that is at least [x] with [true], or [(0, false)] when every stored
    key is below [x] (so also on an empty container). The stored points
    are unchanged. *)
Theorem Ceiling_spec (s : Series) (x : Z) :
  wf s →
  ∃ s' r, Ceiling s x = Done (s', r) ∧ wf s' ∧ points s' = points s ∧
    ((r = (0, false) ∧ ∀ k, stored s k → k < x) ∨
     (∃ k, r = (k, true) ∧ is_ceiling (points s) x k)).
Proof.
  intros Hwf. unfold Ceiling. case_decide as Hsize.
  { exists s, (0, false). split; [done|]. split; [done|]. split; [done|].
    left. split; [done|]. intros k Hk. by apply stored_Size in Hk. }
  destruct (points s !! x) as [v|] eqn:Hx.
  { exists s, (x, true). split; [done|]. split; [done|]. split; [done|].
    right. exists x. split; [done|]. split; [by eexists|]. split; [lia|done]. }
  pose proof (sort_wf s Hwf) as Hwf'.
  pose proof (sort_strongly_sorted s Hwf) as Hs.
  pose proof (sort_sorted_keys s) as Hkeys.
  assert (∀ k, stored s k → k ≠ x) as Hne.
  { intros k [w Hk] ->. congruence. }
  destruct (find_sorted (sort s) x Hs)
    as (r & -> & [[-> Hnone]|(Hr0 & kr & Hkr & Hkx & Hmax)]);
    cbn [mbind res_bind].
  - case_decide as Hlen.
    + exists (sort s), (0, false). split; [done|]. split; [done|].
      split; [apply sort_points|]. left. split; [done|].
      intros k Hk. apply (Hkeys k Hwf) in Hk.
      destruct (sorted (sort s)); [by apply elem_of_nil in Hk|simpl in Hlen; lia].
    + destruct (index_in_range (sorted (sort s)) (-1 + 1)) as (k0 & -> & Hk0);
        [lia|].
      cbn [mbind res_bind]. exists (sort s), (k0, true).
      split; [done|]. split; [done|]. split; [apply sort_points|].
      right. exists k0. split; [done|].
      pose proof (list_elem_of_lookup_2 _ _ _ Hk0) as Hin.
      split; [by apply (Hkeys k0 Hwf)|].
      split; [specialize (Hnone k0 Hin); lia|].
      intros k' Hk' _. apply (Hkeys k' Hwf) in Hk'.
      apply list_elem_of_lookup in Hk' as [p Hp].
      eapply (StronglySorted_lt_lookup_le _ _ p); eauto. simpl. lia.
  - assert (kr < x) as Hlt.
    { assert (kr ≠ x); [|lia]. apply Hne, (Hkeys kr Hwf).
      by eapply list_elem_of_lookup_2. }
    case_decide as Hlen.
    + exists (sort s), (0, false). split; [done|]. split; [done|].
      split; [apply sort_points|]. left. split; [done|].
      intros k Hk. apply (Hkeys k Hwf) in Hk.
      apply list_elem_of_lookup in Hk as [p Hp].
      pose proof (lookup_lt_Some _ _ _ Hp) as Hplen.
      assert (k ≤ kr); [|lia].
      eapply (StronglySorted_lt_lookup_le _ p (Z.to_nat r)); eauto. lia.
    + destruct (index_in_range (sorted (sort s)) (r + 1)) as (k1 & -> & Hk1);
        [lia|].
      cbn [mbind res_bind]. exists (sort s), (k1, true).
      split; [done|]. split; [done|]. split; [apply sort_points|].
      right. exists k1. split; [done|].
      pose proof (list_elem_of_lookup_2 _ _ _ Hk1) as Hin.
      pose proof (StronglySorted_lt_lookup _ (Z.to_nat r) (Z.to_nat (r + 1))
                    kr k1 Hs Hkr Hk1 ltac:(lia)) as Hkr1.
      assert (x < k1) as Hxk1.
      { destruct (decide (x < k1)) as [|Hge]; [done|].
        specialize (Hmax k1 Hin ltac:(lia)). lia. }
      split; [by apply (Hkeys k1 Hwf)|]. split; [lia|].
      intros k' Hk' Hxk'. apply (Hkeys k' Hwf) in Hk'.
      pose proof Hk' as Hin'.
      apply list_elem_of_lookup in Hk' as [p Hp].
      destruct (decide (p ≤ Z.to_nat r)%nat) as [Hle|Hgt].
      * pose proof (StronglySorted_lt_lookup_le _ p (Z.to_nat r) k' kr Hs Hp Hkr Hle).
        assert (k' ≠ x) by (by apply Hne, (Hkeys k' Hwf)). lia.
      * eapply (StronglySorted_lt_lookup_le _ (Z.to_nat (r + 1)) p); eauto. lia.
Qed.

(** X9. On a well-formed container [Xs] returns the stored keys, each once,
    in strictly increasing order, as many as [Size] says; it leaves the
    container well formed with the same points and an empty buffer, and a
    second call returns the same. *)
Theorem Xs_spec (s : Series) :
  wf s →
  ∃ s' xs, Xs s = (s', xs) ∧
    Sorted Z.lt xs ∧
    (∀ k, k ∈ xs ↔ stored s k) ∧
    Z.of_nat (length xs) = Size s ∧
    wf s' ∧ points s' = points s ∧ unsorted s' = [] ∧
    Xs s' = (s', xs).
Proof.
  intros Hwf. exists (sort s), (sorted (sort s)). split; [done|].
  split; [apply (sort_wf s Hwf)|].
  split; [intros k; by apply sort_sorted_keys|].
  split; [by rewrite sort_canonical, keys_sorted_length|].
  split; [by apply sort_wf|]. split; [apply sort_points|].
  split; [apply sort_unsorted|]. unfold Xs. by rewrite sort_sort.
Qed.

(** X10. On a well-formed container [X0] returns the least stored key, and
    0 when nothing is stored; it is the first element of what [Xs]
    returns. *)
Theorem X0_spec (s : Series) :
  wf s →
  (X0 s).2 = default 0 (head (Xs s).2) ∧
  (points s = ∅ → (X0 s).2 = 0) ∧
  (∀ k, stored s k → stored s (X0 s).2 ∧ (X0 s).2 ≤ k).
Proof.
  intros Hwf. pose proof (sort_strongly_sorted s Hwf) as Hs.
  pose proof (sort_sorted_keys s) as Hkeys.
  unfold X0, Xs. simpl.
  destruct (sorted (sort s)) as [|k0 l] eqn:Hsorted; simpl.
  - split; [done|]. split; [done|]. intros k Hk.
    apply (Hkeys k Hwf) in Hk. by apply elem_of_nil in Hk.
  - split; [done|]. split.
    + intros Hempty. exfalso.
      assert (stored s k0) as [v Hv] by (apply (Hkeys k0 Hwf); left).
      by rewrite Hempty, lookup_empty in Hv.
    + intros k Hk. split; [apply (Hkeys k0 Hwf); left|].
      apply (Hkeys k Hwf) in Hk. apply elem_of_cons in Hk as [->|Hk]; [lia|].
      pose proof (sorted_cons_lt _ _ _ Hs Hk). lia.
Qed.

(** ** Filling, copying and emptying a container *)

Lemma Set_each_fresh (data : gmap Z Z) (keys : list Z)
    (pts : gmap Z Z) (sl uns : list Z) :
  NoDup keys → (∀ k, k ∈ keys → pts !! k = None) →
  Set_each (mkSeries pts sl uns) data keys =
    (let '(p, u) :=
       foldl (λ '(points, unsorted) key,
                (<[key := mapget data key]> points, unsorted ++ [key]))
             (pts, uns) keys in
     mkSeries p sl u).
Proof.
  revert pts uns. induction keys as [|a keys IH]; intros pts uns Hnd Hfresh.
  { done. }
  apply NoDup_cons in Hnd as [Ha Hnd].
  unfold Set_each in *. cbn [foldl].
  assert (Set_ (mkSeries pts sl uns) a (mapget data a)
          = mkSeries (<[a := mapget data a]> pts) sl (uns ++ [a])) as ->.
  { unfold Set_. simpl. by rewrite Hfresh by left. }
  apply IH; [done|]. intros k Hk.
  rewrite lookup_insert_ne by (by intros ->). apply Hfresh. by right.
Qed.



Lemma wf_empty (s : Series) : wf s → points s = ∅ → s = NewSeries.
Proof.
  intros [Hk _ _] Hempty. destruct s as [pts sl uns]. simpl in *. subst pts.
  assert (sl ++ uns = []) as [-> ->]%app_eq_nil; [|done].
  destruct (sl ++ uns) as [|k l]; [done|]. exfalso.
  assert (stored (mkSeries ∅ sl uns) k) as [v Hv] by (apply Hk; left).
  simpl in Hv. by rewrite lookup_empty in Hv.
Qed.

Lemma Remove_each_spec (s : Series) (keys : list Z) :
  wf s → NoDup keys → (∀ k, k ∈ keys → stored s k) →
  ∃ s', Remove_each s keys = Done s' ∧ wf s' ∧
    (∀ k, points s' !! k = if decide (k ∈ keys) then None else points s !! k) ∧
    Size s' = Size s - Z.of_nat (length keys).
Proof.
  revert s. induction keys as [|a keys IH]; intros s Hwf Hnd Hst.
  { exists s. split; [done|]. split; [done|]. split; [|simpl; lia].
    intros k. rewrite decide_False; [done|]. apply not_elem_of_nil. }
  apply NoDup_cons in Hnd as [Ha Hnd].
  destruct (Remove_stored s a Hwf (Hst a ltac:(left))) as (s1 & HR & Hpts & Hwf1).
  destruct (IH s1 Hwf1 Hnd) as (s' & HR' & Hwf' & Hl & Hsize).
  { intros k Hk. unfold stored. rewrite Hpts, lookup_delete_ne by (by intros ->).
    apply Hst. by right. }
  exists s'. cbn [Remove_each]. rewrite HR. cbn [mbind res_bind].
  split; [done|]. split; [done|]. split.
  - intros k. rewrite Hl, Hpts. destruct (decide (k ∈ keys)) as [Hin|Hout].
    + rewrite decide_True; [done|by right].
    + destruct (decide (k = a)) as [->|Hne].
      * rewrite lookup_delete_eq. rewrite decide_True; [done|by left].
      * rewrite lookup_delete_ne by done. rewrite decide_False; [done|].
        by intros [?|?]%elem_of_cons.
  - rewrite Hsize. unfold Size. rewrite Hpts.
    rewrite map_size_delete_Some by (apply Hst; left).
    pose proof (stored_Size s a (Hst a ltac:(left))) as Hne.
    unfold Size in Hne. simpl. lia.
Qed.

(** X11. Removing duplicate-free stored keys one after the other, in any
    order, always returns: it deletes exactly those points and lowers
    [Size] by their number; when they are all the stored keys, what is
    left is the state of a new empty container. *)
Theorem Remove_each_exact (s : Series) (keys : list Z) :
  wf s → NoDup keys → (∀ k, k ∈ keys → stored s k) →
  ∃ s', Remove_each s keys = Done s' ∧ wf s' ∧
    (∀ k, points s' !! k = if decide (k ∈ keys) then None else points s !! k) ∧
    Size s' = Size s - Z.of_nat (length keys) ∧
    ((∀ k, stored s k → k ∈ keys) → s' = NewSeries).
Proof.
  intros Hwf Hnd Hst.
  destruct (Remove_each_spec s keys Hwf Hnd Hst) as (s' & HR & Hwf' & Hl & Hsize).
  exists s'. split; [done|]. split; [done|]. split; [done|]. split; [done|].
  intros Hall. apply wf_empty; [done|]. apply map_empty. intros k.
  rewrite Hl. case_decide as Hin; [done|].
  apply eq_None_not_Some. intros Hk. by apply Hin, Hall.
Qed.



Section filling.

Variable range_keys : gmap Z Z → list Z.
Hypothesis range_keys_perm : ∀ m, range_keys m ≡ₚ (map_to_list m).*1.

(** X14. [NewSeriesData] does what the [Set] calls of its data do, in the
    order of the iteration: it returns the very state that [Set] of every
    point leaves on a new container. Filled in another order, the
    container [Equals] it. *)
Theorem NewSeriesData_as_Sets (data : gmap Z Z) (keys : list Z) :
  keys ≡ₚ (map_to_list data).*1 →
  NewSeriesData range_keys data = Set_each NewSeries data (range_keys data) ∧
  Set_each NewSeries data keys = mkSeries data [] keys ∧
  Equals (Set_each NewSeries data keys) (NewSeriesData range_keys data) = true.
Proof.
  intros Hkeys.
  assert (∀ l, l ≡ₚ (map_to_list data).*1 →
               Set_each NewSeries data l = mkSeries data [] l) as Hfill.
  { intros l Hl. unfold NewSeries. rewrite Set_each_fresh.
    - destruct (NewSeriesData_loop data l ∅ []) as (pts & -> & Hpts).
      simpl. f_equal. apply map_eq. intros k. rewrite Hpts.
      case_decide as Hin.
      + rewrite Hl in Hin. apply keys_elem in Hin as [v Hv].
        unfold mapget. by rewrite Hv.
      + rewrite lookup_empty. symmetry. apply eq_None_not_Some.
        by rewrite <-keys_elem, <-Hl.
    - rewrite Hl. apply NoDup_fst_map_to_list.
    - intros k _. apply lookup_empty. }
  rewrite (NewSeriesData_eq range_keys range_keys_perm).
  split; [by rewrite Hfill|]. split; [by apply Hfill|].
  rewrite Hfill by done. unfold Equals. by apply bool_decide_eq_true.
Qed.

(** X15. Round trip of [NewSeriesData]: the new container has as many
    points as the data; [Xs] lists the keys of the data in increasing
    order, and on the state that [Xs] leaves, [Get] at each listed key
    returns the value of the data and changes nothing. *)
Theorem NewSeriesData_round_trip (data : gmap Z Z) :
  Size (NewSeriesData range_keys data) = Z.of_nat (size data) ∧
  ∃ s' xs, Xs (NewSeriesData range_keys data) = (s', xs) ∧
    Sorted Z.lt xs ∧
    (∀ k, k ∈ xs ↔ is_Some (data !! k)) ∧
    Forall (λ k, ∃ v, Get s' k = Done (s', v) ∧ data !! k = Some v) xs ∧
    list_to_map ((λ k, (k, mapget (points s') k)) <$> xs) = data.
Proof.
  pose proof (NewSeriesData_wf range_keys range_keys_perm data) as Hwf.
  pose proof (NewSeriesData_eq range_keys range_keys_perm data) as Heq.
  assert (points (NewSeriesData range_keys data) = data) as Hpts
    by (by rewrite Heq).
  split; [unfold Size; by rewrite Hpts|].
  destruct (Xs_spec _ Hwf) as (s' & xs & HXs & Hsorted & Hxs & _ & _ & Hpts' & _).
  rewrite Hpts in Hpts'. unfold stored in Hxs. rewrite Hpts in Hxs.
  exists s', xs. split; [done|]. split; [done|]. split; [done|]. split.
  - apply Forall_forall. intros k [v Hv]%Hxs. exists v. split; [|done].
    unfold Get. by rewrite Hpts', Hv.
  - rewrite Hpts'. apply map_eq. intros k.
    destruct (data !! k) as [v|] eqn:Hk.
    + apply elem_of_list_to_map_1.
      * rewrite <-list_fmap_compose.
        assert ((fst ∘ (λ k0, (k0, mapget data k0))) <$> xs = xs) as ->.
        { rewrite <-(list_fmap_id xs) at 2. by apply list_fmap_ext. }
        apply (Sorted_StronglySorted _) in Hsorted.
        by apply StronglySorted_lt_NoDup.
      * apply list_elem_of_fmap. exists k. split.
        -- unfold mapget. by rewrite Hk.
        -- apply Hxs. by eexists.
    + apply not_elem_of_list_to_map_1. rewrite <-list_fmap_compose.
      intros (k' & Hk' & Hin)%list_elem_of_fmap. simpl in Hk'. subst k'.
      apply Hxs in Hin as [? ?]. congruence.
Qed.

End filling.

(** ** The reducers *)

Lemma wrap64_id (z : Z) : int64 z → wrap64 z = z.
Proof.
  unfold int64, wrap64. intros Hz. rewrite Z.mod_small; lia.
Qed.

Lemma wrap64_int64 (z : Z) : int64 (wrap64 z).
Proof.
  unfold int64, wrap64.
  pose proof (Z.mod_pos_bound (z + 2 ^ 63) (2 ^ 64) ltac:(lia)). lia.
Qed.

Lemma wrap64_add_l (a b : Z) : wrap64 (wrap64 a + b) = wrap64 (a + b).
Proof.
  unfold wrap64. f_equal.
  replace ((a + 2 ^ 63) `mod` 2 ^ 64 - 2 ^ 63 + b + 2 ^ 63)
    with ((a + 2 ^ 63) `mod` 2 ^ 64 + b) by lia.
  rewrite Zplus_mod_idemp_l. f_equal. lia.
Qed.

Lemma wrap64_sub_r (a b : Z) : wrap64 (a - wrap64 b) = wrap64 (a - b).
Proof.
  unfold wrap64. f_equal.
  change (2 ^ 63) with 9223372036854775808.
  change (2 ^ 64) with 18446744073709551616.
  replace (a - ((b + 9223372036854775808) `mod` 18446744073709551616
                - 9223372036854775808) + 9223372036854775808)
    with (a + 18446744073709551616
          - (b + 9223372036854775808) `mod` 18446744073709551616) by lia.
  rewrite Zminus_mod_idemp_r.
  f_equal. lia.
Qed.

Lemma Sum_loop (a : Z) (vals : list Z) :
  foldl (λ sum val, wrap64 (sum + val)) (wrap64 a) vals
  = wrap64 (a + total vals).
Proof.
  revert a. induction vals as [|v vals IH]; intros a; simpl.
  { f_equal. lia. }
  rewrite wrap64_add_l, IH. f_equal. lia.
Qed.

Lemma total_perm (l1 l2 : list Z) : l1 ≡ₚ l2 → total l1 = total l2.
Proof.
  induction 1 as [|x l1 l2 _ IH|x y l|l1 l2 l3 _ IH1 _ IH2]; simpl;
    [done|by rewrite IH|lia|congruence].
Qed.

(** X16. [Sum] is the sum of its arguments reduced to [int64]: wrapping
    at every addition gives what one wrap of the exact sum gives. So [Sum]
    is the exact sum whenever that is an [int64], whatever the partial
    sums do, and it does not depend on the order of the arguments. *)
Theorem Sum_spec (vals : list Z) :
  Sum vals = wrap64 (total vals) ∧
  int64 (Sum vals) ∧
  (int64 (total vals) → Sum vals = total vals) ∧
  (∀ vals', vals ≡ₚ vals' → Sum vals = Sum vals').
Proof.
  assert (∀ l, Sum l = wrap64 (total l)) as HSum.
  { intros l. unfold Sum. change 0 with (wrap64 0) at 1.
    by rewrite Sum_loop. }
  split; [done|]. split; [rewrite HSum; apply wrap64_int64|].
  split; [intros Hr; rewrite HSum; by apply wrap64_id|].
  intros vals' Hp. by rewrite !HSum, (total_perm _ _ Hp).
Qed.

Lemma Diff_loop_pos (i : Z) (vals : list Z) (d : Z) :
  i > 0 → Diff_loop i vals (wrap64 d) = wrap64 (d - total vals).
Proof.
  revert i d. induction vals as [|v vals IH]; intros i d Hi; simpl.
  { f_equal. lia. }
  rewrite decide_False by lia.
  replace (wrap64 d - v) with (wrap64 d + - v) by lia.
  rewrite wrap64_add_l, IH by lia. f_equal. lia.
Qed.

(** X17. [Diff] of an [int64] first argument and further arguments is the
    first minus the sum of the others, reduced to [int64]; it is also the
    first minus what [Sum] returns for the others, reduced to [int64]. So
    it is the exact difference whenever that is an [int64]. *)
Theorem Diff_spec (v : Z) (rest : list Z) :
  int64 v →
  Diff (v :: rest) = wrap64 (v - total rest) ∧
  Diff (v :: rest) = wrap64 (v - Sum rest) ∧
  (int64 (v - total rest) → Diff (v :: rest) = v - total rest).
Proof.
  intros Hv.
  assert (Diff (v :: rest) = wrap64 (v - total rest)) as HD.
  { unfold Diff. simpl. rewrite <-(wrap64_id v Hv) at 1.
    by apply Diff_loop_pos. }
  split; [done|]. split.
  - rewrite HD. destruct (Sum_spec rest) as [-> _]. by rewrite wrap64_sub_r.
  - intros Hr. rewrite HD. by apply wrap64_id.
Qed.

Lemma Diff_spec_witness :
  int64 (2 ^ 63 - 1) ∧
  Diff [2 ^ 63 - 1; -1; 5] = wrap64 (2 ^ 63 - 1 - total [-1; 5]) ∧
  Diff [2 ^ 63 - 1; -1; 5] = wrap64 (2 ^ 63 - 1 - Sum [-1; 5]) ∧
  (int64 (2 ^ 63 - 1 - total [-1; 5]) →
   Diff [2 ^ 63 - 1; -1; 5] = 2 ^ 63 - 1 - total [-1; 5]).
Proof.
  assert (int64 (2 ^ 63 - 1)) as Hv by (unfold int64; lia).
  split; [done|]. apply (Diff_spec (2 ^ 63 - 1) [-1; 5] Hv).
Defined.

Lemma Any_loop (a : Z) (vals : list Z) :
  foldl (λ any val, if decide (val ≠ 0) then 1 else any) a vals
  = if decide (Exists (λ v, v ≠ 0) vals) then 1 else a.
Proof.
  revert a. induction vals as [|v vals IH]; intros a; cbn [foldl].
  { rewrite decide_False; [done|]. by intros ?%Exists_nil. }
  rewrite IH. destruct (decide (Exists (λ v0, v0 ≠ 0) vals)) as [He|Hn].
  - rewrite decide_True; [done|]. by apply Exists_cons_tl.
  - destruct (decide (v ≠ 0)) as [Hv|Hv].
    + rewrite decide_True; [done|]. by apply Exists_cons_hd.
    + rewrite decide_False; [done|]. by intros [?|?]%Exists_cons.
Qed.

Lemma All_loop (a : Z) (vals : list Z) :
  foldl (λ all val, if decide (val = 0) then 0 else all) a vals
  = if decide (Exists (λ v, v = 0) vals) then 0 else a.
Proof.
  revert a. induction vals as [|v vals IH]; intros a; cbn [foldl].
  { rewrite decide_False; [done|]. by intros ?%Exists_nil. }
  rewrite IH. destruct (decide (Exists (λ v0, v0 = 0) vals)) as [He|Hn].
  - rewrite decide_True; [done|]. by apply Exists_cons_tl.
  - destruct (decide (v = 0)) as [Hv|Hv].
    + rewrite decide_True; [done|]. by apply Exists_cons_hd.
    + rewrite decide_False; [done|]. by intros [?|?]%Exists_cons.
Qed.

Lemma Any_All_facts (vals : list Z) :
  (Any vals = 1 ↔ Exists (λ v, v ≠ 0) vals) ∧
  (Any vals = 0 ↔ Forall (λ v, v = 0) vals) ∧
  (All vals = 1 ↔ Forall (λ v, v ≠ 0) vals) ∧
  (All vals = 0 ↔ Exists (λ v, v = 0) vals) ∧
  (Any vals = 0 ∨ Any vals = 1) ∧ (All vals = 0 ∨ All vals = 1) ∧
  (vals ≠ [] → All vals ≤ Any vals).
Proof.
  unfold Any, All. rewrite Any_loop, All_loop.
  assert (Forall (λ v : Z, v = 0) vals ↔ ¬ Exists (λ v, v ≠ 0) vals) as HF0.
  { rewrite Forall_forall, Exists_exists. split.
    - intros H (v & Hin & Hv). by apply Hv, H.
    - intros H v Hin. destruct (decide (v = 0)) as [|Hv]; [done|].
      exfalso. apply H. by exists v. }
  assert (Forall (λ v : Z, v ≠ 0) vals ↔ ¬ Exists (λ v, v = 0) vals) as HF1.
  { rewrite Forall_forall, Exists_exists. split.
    - intros H (v & Hin & Hv). by apply (H v Hin).
    - intros H v Hin Hv. apply H. by exists v. }
  rewrite HF0, HF1.
  assert (vals ≠ [] → Exists (λ v, v ≠ 0) vals ∨ Exists (λ v, v = 0) vals)
    as Hne.
  { destruct vals as [|v vals]; [done|]. intros _.
    destruct (decide (v = 0)) as [Hv|Hv];
      [right|left]; by apply Exists_cons_hd. }
  destruct (decide (Exists (λ v, v ≠ 0) vals)) as [Ha|Ha];
    destruct (decide (Exists (λ v, v = 0) vals)) as [Hb|Hb];
    (split; [|split; [|split; [|split; [|split; [|split]]]]]);
    try (split; intros; (done || lia || tauto));
    try lia; try tauto.
  all: intros Hvals; destruct (Hne Hvals); done.
Qed.

(** X18. [Any] returns 1 when one of its arguments is not 0 and 0 when
    all of them are 0, and nothing else; [All] returns 1 when none of its
    arguments is 0 and 0 when one of them is 0, and nothing else. With
    at least one argument [All] is at most [Any]; with none, [All] is 1
    and [Any] is 0. *)
Theorem Any_All_spec (vals : list Z) :
  (Any vals = 1 ↔ Exists (λ v, v ≠ 0) vals) ∧
  (Any vals = 0 ↔ Forall (λ v, v = 0) vals) ∧
  (All vals = 1 ↔ Forall (λ v, v ≠ 0) vals) ∧
  (All vals = 0 ↔ Exists (λ v, v = 0) vals) ∧
  (Any vals = 0 ∨ Any vals = 1) ∧ (All vals = 0 ∨ All vals = 1) ∧
  (vals ≠ [] → All vals ≤ Any vals) ∧
  (vals = [] → All vals = 1 ∧ Any vals = 0).
Proof.
  destruct (Any_All_facts vals) as (H1 & H2 & H3 & H4 & H5 & H6 & H7).
  repeat (split; [done|]). by intros ->.
Qed.

(** ** [Combine] as a pointwise operation *)

Lemma floor_value_gap (m : gmap Z Z) (k x : Z) :
  k ≤ x → (∀ q, is_Some (m !! q) → q ≤ x → q ≤ k) →
  floor_value m k = floor_value m x.
Proof.
  intros Hkx Hgap. eapply step_value_unique; [|apply floor_value_step].
  destruct (floor_value_step m k) as [(q & (Hq & Hqk & Hmax) & Hv)|[Hnone ->]].
  - left. exists q. split; [|done]. split; [done|]. split; [lia|].
    intros q' Hq' Hq'x. apply Hmax; [done|]. by apply Hgap.
  - right. split; [|done]. intros q Hq.
    destruct (decide (q ≤ x)) as [Hle|]; [|lia].
    specialize (Hgap q Hq Hle). specialize (Hnone q Hq). lia.
Qed.

Lemma inputs_wf_hold (h : heap) (ptrs : list loc) :
  inputs_wf h ptrs → ∃ ms, inputs_hold h ptrs ms.
Proof.
  induction ptrs as [|p ptrs IH]; intros Hin.
  { exists []. constructor. }
  destruct (Hin p ltac:(left)) as (s & Hp & Hwf).
  destruct IH as [ms Hms].
  { intros q Hq. apply Hin. by right. }
  exists (points s :: ms). constructor; [by exists s|done].
Qed.

Lemma inputs_hold_Get (h : heap) (ptrs : list loc) (ms : list (gmap Z Z))
    (x : Z) :
  inputs_hold h ptrs ms →
  Forall2 (value_of h x) ptrs ((λ m, floor_value m x) <$> ms).
Proof.
  induction 1 as [|p m ptrs ms (s & Hp & Hwf & Hm) _ IH]; [constructor|].
  rewrite fmap_cons. constructor; [|done].
  destruct (Get_step_value s x Hwf) as (s' & y & HG & _).
  exists s, s'. split; [done|].
  by rewrite <-Hm, <-(Get_floor_value s s' x y Hwf HG).
Qed.

Lemma inputs_hold_key_of (h : heap) (ptrs : list loc) (ms : list (gmap Z Z))
    (m : gmap Z Z) (q : Z) :
  inputs_hold h ptrs ms → m ∈ ms → is_Some (m !! q) → input_key h ptrs q.
Proof.
  intros Hh Hm Hq. apply (inputs_hold_keys h ptrs ms q Hh).
  apply elem_of_union_list. exists (dom m). split.
  - apply list_elem_of_fmap. by exists m.
  - by apply elem_of_dom.
Qed.

Section pointwise.

Variable range_keys : gmap Z Z → list Z.
Hypothesis range_keys_perm : ∀ m, range_keys m ≡ₚ (map_to_list m).*1.

(** X19. The container that [Combine] returns is the pointwise
    combination of its inputs, at stored keys and between them: at every
    [x] that is at or above some stored key of an input, [Get(x)] on the
    result is [f] applied to the results of [Get(x)] on the inputs, in
    the order of the arguments; at every [x] below all stored keys of all
    inputs, [Get(x)] on the result is 0, whatever [f] returns there. *)
Theorem Combine_pointwise (f : list Z → Z) (h : heap) (ptrs : list loc)
    (x : Z) :
  inputs_wf h ptrs →
  ∃ h' c c' y vs,
    Combine range_keys f h ptrs = Done (h', c) ∧
    Get c x = Done (c', y) ∧
    Forall2 (λ p v, ∃ s s', h !! p = Some s ∧ Get s x = Done (s', v)) ptrs vs ∧
    ((∃ k p s, p ∈ ptrs ∧ h !! p = Some s ∧ stored s k ∧ k ≤ x) → y = f vs) ∧
    ((∀ k p s, p ∈ ptrs → h !! p = Some s → stored s k → x < k) → y = 0).
Proof.
  intros Hin. destruct (inputs_wf_hold h ptrs Hin) as [ms Hh].
  destruct (Combine_points range_keys range_keys_perm f h ptrs ms Hh)
    as (h' & c & HC & Hwf & Hpts).
  destruct (Combine_spec range_keys range_keys_perm f h ptrs Hin)
    as (h2 & c2 & HC2 & _ & _ & Hkeys & Hvals).
  rewrite HC in HC2. injection HC2 as <- <-.
  destruct (Get_step_value c x Hwf) as (c' & y & HG & Hv).
  exists h', c, c', y, ((λ m, floor_value m x) <$> ms).
  split; [done|]. split; [done|].
  split; [by apply inputs_hold_Get|]. split.
  - intros (k0 & p0 & s0 & Hp0 & Hs0 & Hk0 & Hk0x).
    destruct Hv as [(k & (Hk & Hkx & Hmax) & Hy)|[Hnone _]].
    + destruct (Hvals k y Hy) as (vs & Hvs & ->). f_equal.
      rewrite (inputs_hold_values h ptrs ms k vs Hh Hvs).
      apply list_fmap_ext. intros i m Hm. apply floor_value_gap; [done|].
      intros q Hq Hqx. apply Hmax; [|done]. apply Hkeys.
      eapply inputs_hold_key_of; [done| |done].
      by eapply list_elem_of_lookup_2.
    + exfalso. assert (stored c k0) as Hc.
      { apply Hkeys. by exists p0, s0. }
      specialize (Hnone k0 Hc). lia.
  - intros Hnone. eapply step_value_unique; [done|]. right. split; [|done].
    intros k Hk. apply Hkeys in Hk as (p & s & Hp & Hs & Hk). by eapply Hnone.
Qed.

End pointwise.

(** ** The result of [Compact] *)

(** X20. [Compact] returns a container in which no stored point has the
    value of the stored point immediately below it, and that has no more
    points than before; a container with fewer than two points is left
    exactly as it is, with its buffer. *)
Theorem Compact_no_redundant (s : Series) :
  wf s →
  ∃ s', Compact s = Done s' ∧
    (∀ k p, stored s' k → pred_key (points s') k p →
            points s' !! p ≠ points s' !! k) ∧
    Size s' ≤ Size s ∧
    (Size s < 2 → s' = s) ∧
    (2 ≤ Size s → unsorted s' = []).
Proof.
  intros Hwf. destruct (Compact_spec s Hwf) as (s' & HC & Hcp).
  exists s'. split; [done|]. split; [|split; [|split]].
  - intros k p Hk Hp Heq.
    destruct (Compact_spec s' (cp_wf _ _ Hcp)) as (s'' & HC' & Hcp').
    rewrite (cp_fix _ _ Hcp) in HC'. injection HC' as <-.
    apply (cp_retained _ _ Hcp' k Hk); [|done]. by exists p.
  - unfold Size. apply inj_le, map_subseteq_size, map_subseteq_spec.
    apply Hcp.
  - intros Hsmall. destruct (Compact_small s Hwf Hsmall) as [HC' _].
    rewrite HC in HC'. by injection HC' as ->.
  - intros Hlarge. destruct (Compact_large s Hwf ltac:(lia)) as (pts' & HC' & _).
    rewrite HC in HC'. by injection HC' as ->.
Qed.

(** ** [Compact] and [Equals] *)






(** ** The further properties at the test data *)

Lemma caser_merged_wf : wf caser_merged.
Proof. apply wfb_wf. by vm_compute. Qed.



Lemma representation_independent_witness :
  wf caser_series ∧ wf caser_merged ∧
  points caser_series = points caser_merged ∧
  (∃ y a b, Get caser_series 21 = Done (a, y) ∧ Get caser_merged 21 = Done (b, y)) ∧
  (∃ r a b, Floor caser_series 21 = Done (a, r) ∧
            Floor caser_merged 21 = Done (b, r)) ∧
  (∃ r a b, Ceiling caser_series 21 = Done (a, r) ∧
            Ceiling caser_merged 21 = Done (b, r)) ∧
  (Xs caser_series).2 = (Xs caser_merged).2 ∧
  (X0 caser_series).2 = (X0 caser_merged).2.
Proof.
  assert (points caser_series = points caser_merged) as Hpts by (by vm_compute).
  split; [apply caser_series_wf|]. split; [apply caser_merged_wf|].
  split; [done|].
  apply (representation_independent caser_series caser_merged 21
           caser_series_wf caser_merged_wf Hpts).
Defined.

Lemma Floor_spec_witness :
  wf caser_series ∧
  ∃ s' r, Floor caser_series 21 = Done (s', r) ∧ wf s' ∧
    points s' = points caser_series ∧
    ((r = (0, false) ∧ ∀ k, stored caser_series k → 21 < k) ∨
     (∃ k, r = (k, true) ∧ is_floor (points caser_series) 21 k)) ∧
    ∃ s1 y, Get caser_series 21 = Done (s1, y) ∧
            y = if r.2 then mapget (points caser_series) r.1 else 0.
Proof.
  split; [apply caser_series_wf|].
  apply (Floor_spec caser_series 21 caser_series_wf).
Defined.

Lemma Ceiling_spec_witness :
  wf caser_series ∧
  ∃ s' r, Ceiling caser_series 21 = Done (s', r) ∧ wf s' ∧
    points s' = points caser_series ∧
    ((r = (0, false) ∧ ∀ k, stored caser_series k → k < 21) ∨
     (∃ k, r = (k, true) ∧ is_ceiling (points caser_series) 21 k)).
Proof.
  split; [apply caser_series_wf|].
  apply (Ceiling_spec caser_series 21 caser_series_wf).
Defined.

Lemma Xs_spec_witness :
  wf caser_series ∧
  ∃ s' xs, Xs caser_series = (s', xs) ∧
    Sorted Z.lt xs ∧
    (∀ k, k ∈ xs ↔ stored caser_series k) ∧
    Z.of_nat (length xs) = Size caser_series ∧
    wf s' ∧ points s' = points caser_series ∧ unsorted s' = [] ∧
    Xs s' = (s', xs).
Proof.
  split; [apply caser_series_wf|].
  apply (Xs_spec caser_series caser_series_wf).
Defined.

Lemma X0_spec_witness :
  wf case2_series ∧
  (X0 case2_series).2 = default 0 (head (Xs case2_series).2) ∧
  (points case2_series = ∅ → (X0 case2_series).2 = 0) ∧
  (∀ k, stored case2_series k →
        stored case2_series (X0 case2_series).2 ∧ (X0 case2_series).2 ≤ k).
Proof.
  split; [apply case2_series_wf|].
  apply (X0_spec case2_series case2_series_wf).
Defined.

Lemma case2_keys_stored (k : Z) : k ∈ [32; -5] → stored case2_series k.
Proof.
  intros [->|[->|Hk]%elem_of_cons]%elem_of_cons.
  - by exists (-7).
  - by exists 20.
  - by apply elem_of_nil in Hk.
Qed.

Lemma Remove_each_exact_witness :
  wf case2_series ∧ NoDup [32; -5] ∧
  (∀ k, k ∈ [32; -5] → stored case2_series k) ∧
  ∃ s', Remove_each case2_series [32; -5] = Done s' ∧ wf s' ∧
    (∀ k, points s' !! k =
          if decide (k ∈ [32; -5]) then None else points case2_series !! k) ∧
    Size s' = Size case2_series - Z.of_nat (length [32; -5]) ∧
    ((∀ k, stored case2_series k → k ∈ [32; -5]) → s' = NewSeries).
Proof.
  assert (NoDup [32; -5]) as Hnd by (apply (bool_decide_unpack _); by vm_compute).
  split; [apply case2_series_wf|]. split; [done|].
  split; [apply case2_keys_stored|].
  apply (Remove_each_exact case2_series [32; -5] case2_series_wf Hnd
           case2_keys_stored).
Defined.




Lemma case2_keys_perm : [32; -5] ≡ₚ (map_to_list case2).*1.
Proof.
  apply NoDup_Permutation.
  - apply (bool_decide_unpack _). by vm_compute.
  - apply NoDup_fst_map_to_list.
  - intros k. rewrite keys_elem. split.
    + apply case2_keys_stored.
    + intros [v Hv]. apply elem_of_list_to_map_2 in Hv.
      apply elem_of_cons in Hv as [[= -> _]|Hv]; [by left|].
      apply elem_of_cons in Hv as [[= -> _]|Hv]; [right; by left|].
      by apply elem_of_nil in Hv.
Qed.

Lemma NewSeriesData_as_Sets_witness :
  (∀ m, range_map_to_list m ≡ₚ (map_to_list m).*1) ∧
  [32; -5] ≡ₚ (map_to_list case2).*1 ∧
  NewSeriesData range_map_to_list case2
    = Set_each NewSeries case2 (range_map_to_list case2) ∧
  Set_each NewSeries case2 [32; -5] = mkSeries case2 [] [32; -5] ∧
  Equals (Set_each NewSeries case2 [32; -5])
         (NewSeriesData range_map_to_list case2) = true.
Proof.
  split; [apply range_map_to_list_perm|]. split; [apply case2_keys_perm|].
  apply (NewSeriesData_as_Sets range_map_to_list range_map_to_list_perm
           case2 [32; -5] case2_keys_perm).
Defined.

Lemma NewSeriesData_round_trip_witness :
  (∀ m, range_map_to_list m ≡ₚ (map_to_list m).*1) ∧
  Size (NewSeriesData range_map_to_list caser) = Z.of_nat (size caser) ∧
  ∃ s' xs, Xs (NewSeriesData range_map_to_list caser) = (s', xs) ∧
    Sorted Z.lt xs ∧
    (∀ k, k ∈ xs ↔ is_Some (caser !! k)) ∧
    Forall (λ k, ∃ v, Get s' k = Done (s', v) ∧ caser !! k = Some v) xs ∧
    list_to_map ((λ k, (k, mapget (points s') k)) <$> xs) = caser.
Proof.
  split; [apply range_map_to_list_perm|].
  apply (NewSeriesData_round_trip range_map_to_list range_map_to_list_perm caser).
Defined.

Lemma Combine_pointwise_witness :
  (∀ m, range_map_to_list m ≡ₚ (map_to_list m).*1) ∧
  inputs_wf test_heap [1%nat; 2%nat] ∧
  ∃ h' c c' y vs,
    Combine range_map_to_list Diff test_heap [1%nat; 2%nat] = Done (h', c) ∧
    Get c 60 = Done (c', y) ∧
    Forall2 (λ p v, ∃ s s', test_heap !! p = Some s ∧ Get s 60 = Done (s', v))
      [1%nat; 2%nat] vs ∧
    ((∃ k p s, p ∈ [1%nat; 2%nat] ∧ test_heap !! p = Some s ∧
               stored s k ∧ k ≤ 60) → y = Diff vs) ∧
    ((∀ k p s, p ∈ [1%nat; 2%nat] → test_heap !! p = Some s →
               stored s k → 60 < k) → y = 0).
Proof.
  split; [apply range_map_to_list_perm|]. split; [apply test_heap_wf|].
  apply (Combine_pointwise range_map_to_list range_map_to_list_perm Diff
           test_heap [1%nat; 2%nat] 60 test_heap_wf).
Defined.

Lemma Compact_no_redundant_witness :
  wf caser_series ∧
  ∃ s', Compact caser_series = Done s' ∧
    (∀ k p, stored s' k → pred_key (points s') k p →
            points s' !! p ≠ points s' !! k) ∧
    Size s' ≤ Size caser_series ∧
    (Size caser_series < 2 → s' = caser_series) ∧
    (2 ≤ Size caser_series → unsorted s' = []).
Proof.
  split; [apply caser_series_wf|].
  apply (Compact_no_redundant caser_series caser_series_wf).
Defined.



(** ** How [Set] and [Remove] change the step function *)


Lemma step_value_delete (m : gmap Z Z) (x q v : Z) :
  step_value m q v →
  (q < x ∨ ∃ k, is_Some (m !! k) ∧ x < k ≤ q) →
  step_value (delete x m) q v.
Proof.
  intros [(kf & (Hkf & Hkfq & Hmax) & Hv)|[Hnone ->]] Hcase.
  - assert (x ≠ kf) as Hne.
    { destruct Hcase as [?|(k & Hk & Hxk)]; [lia|].
      specialize (Hmax k Hk ltac:(lia)). lia. }
    left. exists kf. rewrite lookup_delete_ne by done. split; [|done].
    split; [by rewrite lookup_delete_ne|]. split; [done|].
    intros k' Hk' Hk'q. destruct (decide (x = k')) as [<-|Hne'].
    + rewrite lookup_delete_eq in Hk'. by destruct Hk'.
    + rewrite lookup_delete_ne in Hk' by done. by apply Hmax.
  - right. split; [|done]. intros k Hk.
    destruct (decide (x = k)) as [<-|Hne].
    + rewrite lookup_delete_eq in Hk. by destruct Hk.
    + rewrite lookup_delete_ne in Hk by done. by apply Hnone.
Qed.



(** X23. [Remove(x)] of a stored key merges one step into the one below:
    [Get(q)] is as before for [q] below [x] and for [q] at or above a
    stored key greater than [x]; from [x] up to the next stored key it
    becomes the value stored at the key immediately below [x], or 0 when
    [x] was the least stored key. *)
Theorem Remove_one_step (s : Series) (x q : Z) :
  wf s → stored s x →
  ∃ s' y0 y1 a b,
    Remove s x = Done s' ∧
    Get s q = Done (a, y0) ∧ Get s' q = Done (b, y1) ∧
    (q < x → y1 = y0) ∧
    ((∃ k, stored s k ∧ x < k ≤ q) → y1 = y0) ∧
    (x ≤ q → (∀ k, stored s k → ¬ (x < k ≤ q)) →
       (∀ p v, pred_key (points s) x p → points s !! p = Some v → y1 = v) ∧
       ((∀ k, stored s k → x ≤ k) → y1 = 0)).
Proof.
  intros Hwf Hx.
  destruct (Remove_stored s x Hwf Hx) as (s' & HR & Hpts & Hwf').
  destruct (Get_step_value s q Hwf) as (a & y0 & HG0 & Hv0).
  destruct (Get_step_value s' q Hwf') as (b & y1 & HG1 & Hv1).
  rewrite Hpts in Hv1.
  exists s', y0, y1, a, b. split; [done|]. split; [done|]. split; [done|].
  split; [|split].
  - intros Hq. eapply step_value_unique; [done|].
    apply step_value_delete; [done|by left].
  - intros Hk. eapply step_value_unique; [done|].
    apply step_value_delete; [done|by right].
  - intros Hxq Hno. split.
    + intros p v (Hp & Hpx & Hbetween) Hv.
      eapply step_value_unique; [done|]. left. exists p.
      split; [|by rewrite lookup_delete_ne by lia].
      split; [by rewrite lookup_delete_ne by lia|]. split; [lia|].
      intros k Hk Hkq.
      destruct (decide (x = k)) as [<-|Hne].
      { rewrite lookup_delete_eq in Hk. by destruct Hk. }
      rewrite lookup_delete_ne in Hk by done.
      specialize (Hno k Hk). specialize (Hbetween k Hk). lia.
    + intros Hleast. eapply step_value_unique; [done|]. right.
      split; [|done]. intros k Hk.
      destruct (decide (x = k)) as [<-|Hne].
      { rewrite lookup_delete_eq in Hk. by destruct Hk. }
      rewrite lookup_delete_ne in Hk by done.
      specialize (Hno k Hk). specialize (Hleast k Hk). lia.
Qed.

Lemma caser_stored_4 : stored caser_series 4.
Proof. by exists 10. Qed.

Lemma Remove_one_step_witness :
  wf caser_series ∧ stored caser_series 4 ∧
  ∃ s' y0 y1 a b,
    Remove caser_series 4 = Done s' ∧
    Get caser_series 4 = Done (a, y0) ∧ Get s' 4 = Done (b, y1) ∧
    (4 < 4 → y1 = y0) ∧
    ((∃ k, stored caser_series k ∧ 4 < k ≤ 4) → y1 = y0) ∧
    (4 ≤ 4 → (∀ k, stored caser_series k → ¬ (4 < k ≤ 4)) →
       (∀ p v, pred_key (points caser_series) 4 p →
               points caser_series !! p = Some v → y1 = v) ∧
       ((∀ k, stored caser_series k → 4 ≤ k) → y1 = 0)).
Proof.
  split; [apply caser_series_wf|]. split; [apply caser_stored_4|].
  apply (Remove_one_step caser_series 4 4 caser_series_wf caser_stored_4).
Defined.

(** ** [Combine] and the order of its arguments *)

Lemma lookup_combine_map (f : list Z → Z) (ms : list (gmap Z Z)) (x v : Z) :
  combine_map f ms !! x = Some v ↔
  x ∈ (⋃ (dom <$> ms) : gset Z) ∧ v = f ((λ m, floor_value m x) <$> ms).
Proof.
  unfold combine_map. rewrite lookup_set_to_map.
  - split; [by intros (y & Hy & [= -> ->])|].
    intros [Hx ->]. by exists x.
  - by intros y y' _ _ [=].
Qed.

Lemma combine_map_perm (f : list Z → Z) (ms ms' : list (gmap Z Z)) :
  (∀ l l', l ≡ₚ l' → f l = f l') → ms ≡ₚ ms' →
  combine_map f ms = combine_map f ms'.
Proof.
  intros Hf Hms. apply map_eq. intros x. apply option_eq. intros v.
  rewrite !lookup_combine_map.
  assert (x ∈ (⋃ (dom <$> ms) : gset Z) ↔ x ∈ (⋃ (dom <$> ms') : gset Z))
    as ->.
  { rewrite !elem_of_union_list. by setoid_rewrite Hms. }
  by rewrite (Hf _ ((λ m, floor_value m x) <$> ms')) by (by rewrite Hms).
Qed.

Lemma inputs_hold_fmap (h : heap) (ptrs : list loc) (ms : list (gmap Z Z)) :
  inputs_hold h ptrs ms →
  ms = (λ p, default ∅ (points <$> h !! p)) <$> ptrs.
Proof.
  induction 1 as [|p m ptrs ms (s & Hp & _ & Hm) _ IH]; [done|].
  rewrite fmap_cons, <-IH, Hp. simpl. by rewrite Hm.
Qed.

Lemma Sum_perm (l l' : list Z) : l ≡ₚ l' → Sum l = Sum l'.
Proof.
  intros Hp. unfold Sum. change 0 with (wrap64 0).
  by rewrite !Sum_loop, (total_perm _ _ Hp).
Qed.

Lemma Any_perm (l l' : list Z) : l ≡ₚ l' → Any l = Any l'.
Proof.
  intros Hp. unfold Any. rewrite !Any_loop.
  destruct (decide (Exists (λ v, v ≠ 0) l)) as [H|H];
    destruct (decide (Exists (λ v, v ≠ 0) l')) as [H'|H']; try done;
    exfalso; rewrite Exists_exists in H, H'.
  - apply H'. destruct H as (v & Hin & Hv). exists v. by rewrite <-Hp.
  - apply H. destruct H' as (v & Hin & Hv). exists v. by rewrite Hp.
Qed.

Lemma All_perm (l l' : list Z) : l ≡ₚ l' → All l = All l'.
Proof.
  intros Hp. unfold All. rewrite !All_loop.
  destruct (decide (Exists (λ v, v = 0) l)) as [H|H];
    destruct (decide (Exists (λ v, v = 0) l')) as [H'|H']; try done;
    exfalso; rewrite Exists_exists in H, H'.
  - apply H'. destruct H as (v & Hin & Hv). exists v. by rewrite <-Hp.
  - apply H. destruct H' as (v & Hin & Hv). exists v. by rewrite Hp.
Qed.

Section symmetric.

Variable range_keys : gmap Z Z → list Z.
Hypothesis range_keys_perm : ∀ m, range_keys m ≡ₚ (map_to_list m).*1.

(** X24. For a reducer that does not depend on the order of its
    arguments, [Combine] does not depend on the order of the containers:
    the results for two orders of the same containers hold the same
    points. [Sum], [Any] and [All] are such reducers. *)
Theorem Combine_symmetric (f : list Z → Z) (h : heap) (ptrs ptrs' : list loc) :
  (∀ l l', l ≡ₚ l' → f l = f l') →
  inputs_wf h ptrs → ptrs ≡ₚ ptrs' →
  (∃ h1 c1 h2 c2,
     Combine range_keys f h ptrs = Done (h1, c1) ∧
     Combine range_keys f h ptrs' = Done (h2, c2) ∧
     points c1 = points c2 ∧ Equals c1 c2 = true) ∧
  (∀ l l', l ≡ₚ l' → Sum l = Sum l' ∧ Any l = Any l' ∧ All l = All l').
Proof.
  intros Hf Hin Hperm. split.
  - assert (inputs_wf h ptrs') as Hin'.
    { intros p Hp. apply Hin. by rewrite Hperm. }
    destruct (inputs_wf_hold h ptrs Hin) as [ms Hms].
    destruct (inputs_wf_hold h ptrs' Hin') as [ms' Hms'].
    destruct (Combine_points range_keys range_keys_perm f h ptrs ms Hms)
      as (h1 & c1 & HC1 & _ & Hpts1).
    destruct (Combine_points range_keys range_keys_perm f h ptrs' ms' Hms')
      as (h2 & c2 & HC2 & _ & Hpts2).
    assert (points c1 = points c2) as Hpts.
    { rewrite Hpts1, Hpts2. apply combine_map_perm; [done|].
      rewrite (inputs_hold_fmap _ _ _ Hms), (inputs_hold_fmap _ _ _ Hms').
      by rewrite Hperm. }
    exists h1, c1, h2, c2. split; [done|]. split; [done|]. split; [done|].
    unfold Equals. by apply bool_decide_eq_true.
  - intros l l' Hl. split; [by apply Sum_perm|].
    split; [by apply Any_perm|by apply All_perm].
Qed.

End symmetric.

Lemma test_ptrs_perm : [1%nat; 2%nat] ≡ₚ [2%nat; 1%nat].
Proof. apply perm_swap. Qed.

Lemma Combine_symmetric_witness :
  (∀ m, range_map_to_list m ≡ₚ (map_to_list m).*1) ∧
  (∀ l l', l ≡ₚ l' → Any l = Any l') ∧
  inputs_wf test_heap [1%nat; 2%nat] ∧ [1%nat; 2%nat] ≡ₚ [2%nat; 1%nat] ∧
  (∃ h1 c1 h2 c2,
     Combine range_map_to_list Any test_heap [1%nat; 2%nat] = Done (h1, c1) ∧
     Combine range_map_to_list Any test_heap [2%nat; 1%nat] = Done (h2, c2) ∧
     points c1 = points c2 ∧ Equals c1 c2 = true) ∧
  (∀ l l', l ≡ₚ l' → Sum l = Sum l' ∧ Any l = Any l' ∧ All l = All l').
Proof.
  split; [apply range_map_to_list_perm|]. split; [apply Any_perm|].
  split; [apply test_heap_wf|]. split; [apply test_ptrs_perm|].
  apply (Combine_symmetric range_map_to_list range_map_to_list_perm Any
           test_heap [1%nat; 2%nat] [2%nat; 1%nat] Any_perm test_heap_wf
           test_ptrs_perm).
Defined.
